(** * ranger: HTTP byte-range parsing and merging

    A shallow embedding of [ranger.go] (package [ranger]) and the
    properties of its exported functions [Parse] and [ParseHeader] and
    of the unexported [mergeRanges].

    Conventions.
    - Go's [int] is taken to be 64 bits wide and is modelled as [Z]; the one
      arithmetic operation of the program, [maxLen - y], is written with its
      two's-complement wrap-around ([GoInt.sub]).
    - Go strings are byte strings: [string] over [ascii].
    - A function returning [(T, error)] returns [res T].
    - [strings.TrimPrefix], [strings.Split], [strconv.Atoi] and
      [http.Header.Get] belong to the Go standard library; they are modelled
      after their library sources in the modules [Strings], [Strconv] and
      [Http]. *)

From Stdlib Require Import ZArith List String Ascii Bool Lia.
From Stdlib Require Import Sorting.Sorted Sorting.Permutation.
Import ListNotations.
Open Scope string_scope.
Open Scope list_scope.
Open Scope Z_scope.

(** ** Go's [int] *)

Module GoInt.

Definition minInt : Z := - 2 ^ 63.
Definition maxInt : Z := 2 ^ 63 - 1.

Definition in_range (z : Z) : Prop := minInt <= z <= maxInt.

(** Two's-complement reduction of a mathematical integer to 64 bits. *)
Definition wrap (z : Z) : Z := (z + 2 ^ 63) mod 2 ^ 64 - 2 ^ 63.

Definition sub (a b : Z) : Z := wrap (a - b).

End GoInt.

(** ** package strings *)

Module Strings.

Fixpoint HasPrefix (s prefix : string) : bool :=
  match prefix, s with
  | EmptyString, _ => true
  | String _ _, EmptyString => false
  | String p ps, String c cs => Ascii.eqb c p && HasPrefix cs ps
  end.

Fixpoint drop (n : nat) (s : string) : string :=
  match n, s with
  | O, _ => s
  | S _, EmptyString => EmptyString
  | S n', String _ cs => drop n' cs
  end.

(** [TrimPrefix] returns [s] without the leading [prefix]; [s] itself when it
    does not start with [prefix]. *)
Definition TrimPrefix (s prefix : string) : string :=
  if HasPrefix s prefix then drop (String.length prefix) s else s.

(** [Split s sep] for a separator of one byte, which is what both call
    sites of the program pass: the substrings between the occurrences of
    [sep], of which there is always at least one. *)
Fixpoint Split (s : string) (sep : ascii) : list string :=
  match s with
  | EmptyString => [EmptyString]
  | String c cs =>
      if Ascii.eqb c sep then EmptyString :: Split cs sep
      else match Split cs sep with
           | [] => [String c EmptyString]
           | p :: ps => String c p :: ps
           end
  end.

End Strings.

(** ** Errors and results *)

Inductive numErr : Type :=
| ErrSyntax
| ErrRange.

(** The three errors the package can return: the sentinel
    [Error = errors.New("invalid range")], a [*strconv.NumError] with the
    text that failed to parse, and the error [ParseHeader] formats from the
    [Content-Length] values. *)
Inductive error : Type :=
| Error
| NumError (Num : string) (Err : numErr)
| InvalidContentLength (values : list string).

Inductive res (A : Type) : Type :=
| Ok (a : A)
| Fail (e : error).

Arguments Ok {A} a.
Arguments Fail {A} e.

(** ** package strconv *)

Module Strconv.

Definition maxUint64 : Z := 2 ^ 64 - 1.
Definition cutoff : Z := maxUint64 / 10 + 1.

(** The digit loop of [ParseUint] for base 10 and 64 bits, [n] being the
    value read so far. A byte that is no decimal digit is a syntax error, a
    value that leaves [uint64] is a range error, whichever comes first. *)
Fixpoint parseUint (s : string) (n : Z) : numErr + Z :=
  match s with
  | EmptyString => inr n
  | String c cs =>
      let d := Z.of_nat (nat_of_ascii c) - 48 in
      if (d <? 0) || (9 <? d) then inl ErrSyntax
      else if n >=? cutoff then inl ErrRange
      else
        let n1 := n * 10 + d in
        if n1 >? maxUint64 then inl ErrRange else parseUint cs n1
  end.

(** [Atoi s]: an optional sign, then one or more decimal digits, the value
    within [int]. The error carries [s] as it was given. *)
Definition Atoi (s : string) : res Z :=
  match s with
  | EmptyString => Fail (NumError s ErrSyntax)
  | String c cs =>
      let neg := Ascii.eqb c "-" in
      let digits := if Ascii.eqb c "+" || neg then cs else s in
      match digits with
      | EmptyString => Fail (NumError s ErrSyntax)
      | String _ _ =>
          match parseUint digits 0 with
          | inl ErrSyntax => Fail (NumError s ErrSyntax)
          | inl ErrRange => Fail (NumError s ErrRange)
          | inr un =>
              if negb neg && (un >=? 2 ^ 63) then Fail (NumError s ErrRange)
              else if neg && (un >? 2 ^ 63) then Fail (NumError s ErrRange)
              else Ok (if neg then - un else un)
          end
      end
  end.

End Strconv.

(** ** package net/http *)

Module Http.

(** [http.Header] is [map[string][]string]. *)
Definition Header : Type := list (string * list string).

(** [h[key]]: the values stored under [key], the nil slice when there are
    none. *)
Fixpoint index (h : Header) (key : string) : list string :=
  match h with
  | [] => []
  | (k, v) :: h' => if String.eqb k key then v else index h' key
  end.

(** [h.Get(key)] for a key in canonical form: the first value under [key],
    the empty string when there is none. *)
Definition Get (h : Header) (key : string) : string :=
  match index h key with
  | [] => EmptyString
  | v :: _ => v
  end.

End Http.

(** ** package ranger *)

Import Strings Strconv Http.

Record Range : Type := mkRange { Start : Z; Stop : Z }.

Definition overlaps (b c : Range) : bool :=
  (Start b <=? Stop c) && (Start c <=? Stop b).

Definition merge (b c : Range) : Range :=
  {| Start := Start b; Stop := Stop c |}.

(** [rangeSlice.Less], on the two elements it compares. *)
Definition Less (bi bj : Range) : bool :=
  if Start bi <? Start bj then true
  else if Start bi =? Start bj then Stop bi <? Stop bj
  else false.

(** [sort.Sort(rangeSlice(br))]. The library's algorithm is not stable, but
    two ranges that [Less] does not separate are equal, so the sorted slice
    is the same for every correct sorting algorithm ([sortRanges_unique]
    below); insertion sort stands for it. *)
Fixpoint insertRange (x : Range) (l : list Range) : list Range :=
  match l with
  | [] => [x]
  | y :: l' => if Less x y then x :: l else y :: insertRange x l'
  end.

Fixpoint sortRanges (l : list Range) : list Range :=
  match l with
  | [] => []
  | x :: l' => insertRange x (sortRanges l')
  end.

(** One iteration of the loop of [mergeRanges] on the state
    [(result, cur)]. *)
Definition mergeStep (st : list Range * Range) (b : Range)
  : list Range * Range :=
  let (result, cur) := st in
  if overlaps cur b then (result, merge cur b)
  else (result ++ [cur], b).

Definition mergeRanges (br : list Range) : list Range :=
  if Z.of_nat (List.length br) <? 2 then br
  else
    match sortRanges br with
    | [] => []
    | br0 :: rest =>
        let (result, cur) := fold_left mergeStep rest ([], br0) in
        result ++ [cur]
    end.

(** The body of the inner loop of [Parse]: the range one comma-separated
    token [r] denotes. *)
Definition parseRange (r : string) (maxLen : Z) : res Range :=
  match Split r "-" with
  | [p0; p1] =>
      if String.eqb p0 "" then
        match Atoi p1 with
        | Fail err => Fail err
        | Ok y =>
            if (y <? 0) || (y >? maxLen) then Fail Error
            else Ok {| Start := GoInt.sub maxLen y; Stop := maxLen |}
        end
      else if String.eqb p1 "" then
        match Atoi p0 with
        | Fail err => Fail err
        | Ok x =>
            if (x <? 0) || (x >? maxLen) then Fail Error
            else Ok {| Start := x; Stop := maxLen |}
        end
      else
        match Atoi p0 with
        | Fail err => Fail err
        | Ok x =>
            match Atoi p1 with
            | Fail err => Fail err
            | Ok y =>
                if (x <? 0) || (y <? 0) || (x >? maxLen) || (y >? maxLen)
                   || (x >? y)
                then Fail Error
                else Ok {| Start := x; Stop := y |}
            end
        end
  | _ => Fail Error
  end.

(** The inner loop: the tokens of one entry, appended to [result]. *)
Fixpoint parseTokens (toks : list string) (maxLen : Z) (result : list Range)
  : res (list Range) :=
  match toks with
  | [] => Ok result
  | r :: toks' =>
      match parseRange r maxLen with
      | Fail err => Fail err
      | Ok rg => parseTokens toks' maxLen (result ++ [rg])
      end
  end.

(** The outer loop: the entries of [ranges]. *)
Fixpoint parseEntries (ranges : list string) (prefix : string) (maxLen : Z)
  (result : list Range) : res (list Range) :=
  match ranges with
  | [] => Ok result
  | r :: ranges' =>
      match parseTokens (Split (TrimPrefix r prefix) ",") maxLen result with
      | Fail err => Fail err
      | Ok result' => parseEntries ranges' prefix maxLen result'
      end
  end.

Definition Parse (ranges : list string) (prefix : string) (maxLen : Z)
  : res (list Range) :=
  match parseEntries ranges prefix maxLen [] with
  | Fail err => Fail err
  | Ok result => Ok (mergeRanges result)
  end.

Definition ParseHeader (h : Header) : res (list Range) :=
  match Atoi (Get h "Content-Length") with
  | Fail _ => Fail (InvalidContentLength (index h "Content-Length"))
  | Ok length => Parse (index h "Range") "bytes=" length
  end.

(** ** Notions the properties are stated with *)

(** [leRange a b]: [a] may stand before [b] in a slice sorted by [Less]. *)
Definition leRange (a b : Range) : Prop := Less b a = false.

(** The loop of [mergeRanges] as a recursion on the sorted slice: [cur] is
    the accumulator, the result is what the loop emits, the final [cur]
    included. *)
Fixpoint sweep (cur : Range) (l : list Range) : list Range :=
  match l with
  | [] => [cur]
  | b :: l' =>
      if overlaps cur b then sweep (merge cur b) l' else cur :: sweep b l'
  end.

(** Position [p] lies in the closed interval [r]. *)
Definition inRange (p : Z) (r : Range) : bool :=
  (Start r <=? p) && (p <=? Stop r).

(** Position [p] is covered by one of the intervals of [l]. *)
Definition covers (l : list Range) (p : Z) : bool := existsb (inRange p) l.

Definition valid (r : Range) : Prop := Start r <= Stop r.

Definition within (maxLen : Z) (r : Range) : Prop :=
  0 <= Start r /\ Start r <= Stop r /\ Stop r <= maxLen.

(** [a] ends strictly before [b] starts. *)
Definition gap (a b : Range) : Prop := Stop a < Start b.

(** What the second run of [mergeRanges] needs of two neighbours. *)
Definition settled (a b : Range) : Prop :=
  leRange a b /\ overlaps a b = false.

(** All comma-separated tokens of all entries, in the order [Parse] visits
    them. *)
Definition tokens (ranges : list string) (prefix : string) : list string :=
  flat_map (fun r => Split (TrimPrefix r prefix) ",") ranges.

(** [Parse] accepts the token. *)
Definition accepted (maxLen : Z) (tok : string) : Prop :=
  exists rg, parseRange tok maxLen = Ok rg.

(** The byte [c] occurs in [s]. *)
Fixpoint contains (s : string) (c : ascii) : bool :=
  match s with
  | EmptyString => false
  | String c' s' => Ascii.eqb c' c || contains s' c
  end.

(** [v] is no position of a content of length [maxLen]. *)
Definition outside (maxLen v : Z) : Prop := v < 0 \/ maxLen < v.

(** The token does not split on ['-'] into exactly two parts. *)
Definition misshapen (tok : string) : Prop :=
  List.length (Split tok "-") <> 2%nat.

(** The token has two parts, the numerals [Parse] reads from it parse, and a
    bound lies outside [0, maxLen] or a closed range has its start after its
    stop. *)
Definition violation (maxLen : Z) (tok : string) : Prop :=
  exists p0 p1, Split tok "-" = [p0; p1] /\
    ((p0 = "" /\ exists y, Atoi p1 = Ok y /\ outside maxLen y) \/
     (p0 <> "" /\ p1 = "" /\ exists x, Atoi p0 = Ok x /\ outside maxLen x) \/
     (p0 <> "" /\ p1 <> "" /\
      exists x y, Atoi p0 = Ok x /\ Atoi p1 = Ok y /\
                  (outside maxLen x \/ outside maxLen y \/ y < x))).

(** The token has two parts and [num] is the first numeral of it that
    [Parse] reads and [Atoi] rejects, with the error [NumError num k]. *)
Definition malformed (tok num : string) (k : numErr) : Prop :=
  exists p0 p1, Split tok "-" = [p0; p1] /\
    Atoi num = Fail (NumError num k) /\
    ((p0 = "" /\ num = p1) \/
     (p0 <> "" /\ num = p0) \/
     (p0 <> "" /\ p1 <> "" /\ (exists x, Atoi p0 = Ok x) /\ num = p1)).

(** [tok] is the first token [Parse] does not accept. *)
Definition first_rejected (ranges : list string) (prefix : string)
  (maxLen : Z) (tok : string) : Prop :=
  exists pre post,
    tokens ranges prefix = pre ++ tok :: post /\
    Forall (accepted maxLen) pre /\
    ~ accepted maxLen tok.


(** ** [rangeSlice] as [sort.Interface] *)

(** [rangeSlice.Len]. *)
Definition Len (b : list Range) : Z := Z.of_nat (List.length b).

(** [b[i]] read; [None] stands for the panic of an index out of range. *)
Definition elemAt (b : list Range) (i : Z) : option Range :=
  if i <? 0 then None else nth_error b (Z.to_nat i).

Fixpoint storeNat (b : list Range) (i : nat) (x : Range)
  : option (list Range) :=
  match b, i with
  | [], _ => None
  | _ :: b', O => Some (x :: b')
  | y :: b', S i' =>
      match storeNat b' i' x with
      | Some b'' => Some (y :: b'')
      | None => None
      end
  end.

(** [b[i] = x]; [None] stands for the panic of an index out of range. *)
Definition store (b : list Range) (i : Z) (x : Range) : option (list Range) :=
  if i <? 0 then None else storeNat b (Z.to_nat i) x.

(** [rangeSlice.Swap], [b[i], b[j] = b[j], b[i]]: both elements are read,
    then [b[i]] and [b[j]] are written, in this order. *)
Definition Swap (b : list Range) (i j : Z) : option (list Range) :=
  match elemAt b j, elemAt b i with
  | Some bj, Some bi =>
      match store b i bj with
      | Some b' => store b' j bi
      | None => None
      end
  | _, _ => None
  end.

(** ** [Parse] without the comparisons with zero *)

(** The body of the inner loop of [Parse] with the comparisons [x < 0] and
    [y < 0] deleted from its three guards and nothing else changed: what the
    loop body would be if those comparisons were dead code. *)
Definition parseRangeNoNeg (r : string) (maxLen : Z) : res Range :=
  match Split r "-" with
  | [p0; p1] =>
      if String.eqb p0 "" then
        match Atoi p1 with
        | Fail err => Fail err
        | Ok y =>
            if y >? maxLen then Fail Error
            else Ok {| Start := GoInt.sub maxLen y; Stop := maxLen |}
        end
      else if String.eqb p1 "" then
        match Atoi p0 with
        | Fail err => Fail err
        | Ok x =>
            if x >? maxLen then Fail Error
            else Ok {| Start := x; Stop := maxLen |}
        end
      else
        match Atoi p0 with
        | Fail err => Fail err
        | Ok x =>
            match Atoi p1 with
            | Fail err => Fail err
            | Ok y =>
                if (x >? maxLen) || (y >? maxLen) || (x >? y)
                then Fail Error
                else Ok {| Start := x; Stop := y |}
            end
        end
  | _ => Fail Error
  end.

(** The two loops and [Parse] itself, the loop body being the parameter
    [body]; with [parseRange] for [body] this is [Parse]
    ([ParseWith_parseRange] below). *)
Fixpoint parseTokensWith (body : string -> Z -> res Range)
  (toks : list string) (maxLen : Z) (result : list Range)
  : res (list Range) :=
  match toks with
  | [] => Ok result
  | r :: toks' =>
      match body r maxLen with
      | Fail err => Fail err
      | Ok rg => parseTokensWith body toks' maxLen (result ++ [rg])
      end
  end.

Fixpoint parseEntriesWith (body : string -> Z -> res Range)
  (ranges : list string) (prefix : string) (maxLen : Z)
  (result : list Range) : res (list Range) :=
  match ranges with
  | [] => Ok result
  | r :: ranges' =>
      match parseTokensWith body (Split (TrimPrefix r prefix) ",") maxLen
              result with
      | Fail err => Fail err
      | Ok result' => parseEntriesWith body ranges' prefix maxLen result'
      end
  end.

Definition ParseWith (body : string -> Z -> res Range)
  (ranges : list string) (prefix : string) (maxLen : Z)
  : res (list Range) :=
  match parseEntriesWith body ranges prefix maxLen [] with
  | Fail err => Fail err
  | Ok result => Ok (mergeRanges result)
  end.


(** * Properties *)

(** ** The order of [Less] *)

Lemma Less_lt (a b : Range) :
  Less a b = true <->
  Start a < Start b \/ (Start a = Start b /\ Stop a < Stop b).
Proof.
  unfold Less.
  destruct (Z.ltb_spec (Start a) (Start b)) as [Hlt | Hge].
  - split; [left; exact Hlt | reflexivity].
  - destruct (Z.eqb_spec (Start a) (Start b)) as [Heq | Hne].
    + rewrite Z.ltb_lt. split; [right; tauto | intros [H | [_ H]]; [lia | exact H]].
    + split; [discriminate | lia].
Qed.

Lemma leRange_le (a b : Range) :
  leRange a b <->
  Start a < Start b \/ (Start a = Start b /\ Stop a <= Stop b).
Proof.
  unfold leRange. rewrite <- not_true_iff_false, Less_lt. lia.
Qed.

Lemma Range_eq (a b : Range) :
  Start a = Start b -> Stop a = Stop b -> a = b.
Proof. destruct a, b; simpl; intros; subst; reflexivity. Qed.

Lemma leRange_refl (a : Range) : leRange a a.
Proof. apply leRange_le. lia. Qed.

Lemma leRange_trans (a b c : Range) :
  leRange a b -> leRange b c -> leRange a c.
Proof. rewrite !leRange_le. lia. Qed.

Lemma leRange_antisym (a b : Range) :
  leRange a b -> leRange b a -> a = b.
Proof. rewrite !leRange_le. intros H1 H2. apply Range_eq; lia. Qed.

Lemma Less_leRange (a b : Range) : Less a b = true -> leRange a b.
Proof. rewrite Less_lt, leRange_le. lia. Qed.

(** ** Sorting *)

Lemma insertRange_perm (x : Range) (l : list Range) :
  Permutation (x :: l) (insertRange x l).
Proof.
  induction l as [| y l IH]; simpl.
  - apply Permutation_refl.
  - destruct (Less x y).
    + apply Permutation_refl.
    + eapply perm_trans; [apply perm_swap | apply perm_skip, IH].
Qed.

Lemma sortRanges_perm (l : list Range) : Permutation l (sortRanges l).
Proof.
  induction l as [| x l IH]; simpl.
  - apply perm_nil.
  - eapply perm_trans; [apply perm_skip, IH | apply insertRange_perm].
Qed.

Lemma insertRange_sorted (x : Range) (l : list Range) :
  StronglySorted leRange l -> StronglySorted leRange (insertRange x l).
Proof.
  induction 1 as [| y l Hl IH Hy]; simpl.
  - repeat constructor.
  - destruct (Less x y) eqn:Hxy.
    + constructor; [constructor; assumption |].
      apply Less_leRange in Hxy. constructor; [exact Hxy |].
      eapply Forall_impl; [| exact Hy].
      intros z Hz. eapply leRange_trans; eassumption.
    + constructor; [exact IH |].
      apply (Permutation_Forall (insertRange_perm x l)).
      constructor; [exact Hxy | exact Hy].
Qed.

Lemma sortRanges_sorted (l : list Range) :
  StronglySorted leRange (sortRanges l).
Proof.
  induction l as [| x l IH]; simpl.
  - constructor.
  - apply insertRange_sorted, IH.
Qed.

(** A slice has one sorted arrangement only. *)
Lemma sorted_perm_eq (l l' : list Range) :
  StronglySorted leRange l -> StronglySorted leRange l' ->
  Permutation l l' -> l = l'.
Proof.
  intros Hl. revert l'.
  induction Hl as [| a l Hl IH Ha]; intros l' Hl' Hp.
  - apply Permutation_nil in Hp. subst. reflexivity.
  - destruct Hl' as [| a' l' Hl' Ha'].
    + apply Permutation_sym, Permutation_nil in Hp. discriminate.
    + assert (a = a') as <-.
      { apply leRange_antisym.
        - assert (In a' (a :: l)) as [-> | Hin]
            by (eapply Permutation_in; [apply Permutation_sym, Hp | left; reflexivity]).
          + apply leRange_refl.
          + rewrite Forall_forall in Ha. apply Ha, Hin.
        - assert (In a (a' :: l')) as [-> | Hin]
            by (eapply Permutation_in; [exact Hp | left; reflexivity]).
          + apply leRange_refl.
          + rewrite Forall_forall in Ha'. apply Ha', Hin. }
      f_equal. apply IH; [exact Hl' |].
      eapply Permutation_cons_inv, Hp.
Qed.

(** Whatever sorted permutation of the slice [sort.Sort] leaves behind, it
    is the one [sortRanges] computes. *)
Lemma sortRanges_unique (l l' : list Range) :
  Permutation l l' -> StronglySorted leRange l' -> l' = sortRanges l.
Proof.
  intros Hp Hs. apply sorted_perm_eq.
  - exact Hs.
  - apply sortRanges_sorted.
  - eapply perm_trans; [apply Permutation_sym, Hp | apply sortRanges_perm].
Qed.

Lemma sortRanges_sorted_id (l : list Range) :
  StronglySorted leRange l -> sortRanges l = l.
Proof.
  intros Hs. symmetry. apply sortRanges_unique; [apply Permutation_refl | exact Hs].
Qed.

(** ** The sweep of [mergeRanges] *)

Lemma overlaps_true (b c : Range) :
  overlaps b c = true <-> Start b <= Stop c /\ Start c <= Stop b.
Proof. unfold overlaps. rewrite andb_true_iff, !Z.leb_le. tauto. Qed.

Lemma overlaps_false (b c : Range) :
  overlaps b c = false <-> Stop c < Start b \/ Stop b < Start c.
Proof. rewrite <- not_true_iff_false, overlaps_true. lia. Qed.

(** The loop, run from the state [(result, cur)], emits [result] followed
    by the sweep from [cur]. *)
Lemma fold_mergeStep_sweep (l result : list Range) (cur : Range) :
  (let (result', cur') := fold_left mergeStep l (result, cur) in
   result' ++ [cur']) = result ++ sweep cur l.
Proof.
  revert result cur. induction l as [| b l IH]; intros result cur; simpl.
  - reflexivity.
  - destruct (overlaps cur b).
    + apply IH.
    + rewrite IH, <- app_assoc. reflexivity.
Qed.

Lemma mergeRanges_sweep (br : list Range) :
  mergeRanges br =
  if Z.of_nat (List.length br) <? 2 then br
  else match sortRanges br with
       | [] => []
       | br0 :: rest => sweep br0 rest
       end.
Proof.
  unfold mergeRanges. destruct (Z.of_nat (List.length br) <? 2); [reflexivity |].
  destruct (sortRanges br) as [| br0 rest]; [reflexivity |].
  apply (fold_mergeStep_sweep rest [] br0).
Qed.

(** The first range the sweep emits starts where [cur] starts; it is [cur]
    itself unless [cur] absorbed a later range. *)
Lemma sweep_head (l : list Range) (cur : Range) :
  Forall (fun b => Start cur <= Start b) l ->
  exists h t, sweep cur l = h :: t /\ Start h = Start cur /\
              (h = cur \/ (Start cur <= Stop cur /\ Start cur <= Stop h)).
Proof.
  revert cur. induction l as [| b l IH]; intros cur Hge; simpl.
  - exists cur, []. auto.
  - inversion Hge as [| ? ? Hb Hl]; subst.
    destruct (overlaps cur b) eqn:Hov.
    + apply overlaps_true in Hov.
      destruct (IH (merge cur b) Hl) as (h & t & -> & Hs & Hh).
      exists h, t. simpl in Hs, Hh. repeat split; [exact Hs |].
      right. destruct Hh as [-> | Hh]; simpl; lia.
    + exists cur, (sweep b l). auto.
Qed.

Lemma merge_sorted (cur b : Range) (l : list Range) :
  StronglySorted leRange (cur :: b :: l) ->
  StronglySorted leRange (merge cur b :: l).
Proof.
  intros Hs. inversion Hs as [| ? ? Hbl Hcur]; subst.
  inversion Hbl as [| ? ? Hl Hb]; subst.
  inversion Hcur as [| ? ? Hcb Hcl]; subst.
  constructor; [exact Hl |].
  rewrite Forall_forall in *. intros z Hz.
  specialize (Hb z Hz). specialize (Hcl z Hz).
  rewrite leRange_le in *. simpl. lia.
Qed.

(** On a sorted slice the sweep emits ranges in order, no two neighbours
    of which overlap. *)
Lemma sweep_settled (l : list Range) (cur : Range) :
  StronglySorted leRange (cur :: l) -> Sorted settled (sweep cur l).
Proof.
  revert cur. induction l as [| b l IH]; intros cur Hs; simpl.
  - repeat constructor.
  - destruct (overlaps cur b) eqn:Hov.
    + apply IH, merge_sorted, Hs.
    + inversion Hs as [| ? ? Hbl Hcur]; subst.
      inversion Hcur as [| ? ? Hcb _]; subst.
      constructor; [apply IH, Hbl |].
      destruct (sweep_head l b) as (h & t & -> & Hst & Hh).
      { inversion Hbl as [| ? ? _ Hb]; subst.
        eapply Forall_impl; [| exact Hb].
        intros z Hz. apply leRange_le in Hz. lia. }
      constructor. split.
      * apply leRange_le. apply leRange_le in Hcb. apply overlaps_false in Hov.
        destruct Hh as [-> | Hh]; lia.
      * apply overlaps_false. apply leRange_le in Hcb. apply overlaps_false in Hov.
        destruct Hh as [-> | Hh]; lia.
Qed.

(** A slice that is already settled passes through the sweep unchanged. *)
Lemma sweep_settled_id (l : list Range) (a : Range) :
  Sorted settled (a :: l) -> sweep a l = a :: l.
Proof.
  revert a. induction l as [| b l IH]; intros a Hs; simpl.
  - reflexivity.
  - inversion Hs as [| ? ? Hbl Hhd]; subst.
    inversion Hhd as [| ? ? [_ Hov]]; subst.
    rewrite Hov, (IH b Hbl). reflexivity.
Qed.

Lemma settled_sorted (l : list Range) :
  Sorted settled l -> StronglySorted leRange l.
Proof.
  intros Hs. apply Sorted_StronglySorted.
  - intros a b c. apply leRange_trans.
  - induction Hs as [| a l _ IH Hhd]; constructor; [exact IH |].
    destruct Hhd as [| b l [Hle _]]; constructor. exact Hle.
Qed.

Lemma sweep_valid (l : list Range) (cur : Range) :
  valid cur -> Forall valid l -> Forall valid (sweep cur l).
Proof.
  revert cur. induction l as [| b l IH]; intros cur Hc Hl; simpl.
  - constructor; [exact Hc | constructor].
  - inversion Hl as [| ? ? Hb Hl']; subst.
    destruct (overlaps cur b) eqn:Hov.
    + apply IH; [| exact Hl'].
      apply overlaps_true in Hov. unfold valid, merge. simpl. lia.
    + constructor; [exact Hc | apply IH; assumption].
Qed.

(** Every emitted range starts where some input range starts and stops
    where some input range stops. *)
Lemma sweep_ends (l : list Range) (cur r : Range) :
  In r (sweep cur l) ->
  (exists a, In a (cur :: l) /\ Start r = Start a) /\
  (exists b, In b (cur :: l) /\ Stop r = Stop b).
Proof.
  revert cur. induction l as [| b l IH]; intros cur Hin; simpl in Hin.
  - destruct Hin as [<- | []]. split; exists cur; simpl; auto.
  - destruct (overlaps cur b).
    + destruct (IH _ Hin) as [(a & Ha & Hsa) (c & Hc & Hsc)]. split.
      * destruct Ha as [<- | Ha]; [exists cur | exists a]; simpl; auto.
      * destruct Hc as [<- | Hc]; [exists b | exists c]; simpl; auto.
    + destruct Hin as [<- | Hin]; [split; exists cur; simpl; auto |].
      destruct (IH _ Hin) as [(a & Ha & Hsa) (c & Hc & Hsc)].
      split; [exists a | exists c]; simpl; auto.
Qed.

(** The sweep covers no position its input does not cover. *)
Lemma sweep_covers_sound (l : list Range) (cur : Range) (p : Z) :
  covers (sweep cur l) p = true -> covers (cur :: l) p = true.
Proof.
  revert cur. induction l as [| b l IH]; intros cur; simpl.
  - trivial.
  - destruct (overlaps cur b) eqn:Hov.
    + intros H. apply IH in H. simpl in H.
      apply overlaps_true in Hov.
      rewrite !orb_true_iff in *. destruct H as [H | H]; [| auto].
      unfold inRange in *. simpl in H.
      rewrite !andb_true_iff, !Z.leb_le in *. lia.
    + simpl. rewrite !orb_true_iff. intros [H | H]; [auto |].
      apply IH in H. simpl in H. rewrite orb_true_iff in H. tauto.
Qed.

(** ** [mergeRanges] *)

Lemma short_slice (br : list Range) :
  (Z.of_nat (List.length br) <? 2) = true ->
  br = [] \/ exists x, br = [x].
Proof.
  rewrite Z.ltb_lt. destruct br as [| x [| y br]]; simpl List.length; intros H.
  - left; reflexivity.
  - right; exists x; reflexivity.
  - lia.
Qed.

Lemma mergeRanges_settled (br : list Range) : Sorted settled (mergeRanges br).
Proof.
  rewrite mergeRanges_sweep.
  destruct (Z.of_nat (List.length br) <? 2) eqn:Hlen.
  - destruct (short_slice br Hlen) as [-> | [x ->]]; repeat constructor.
  - pose proof (sortRanges_sorted br) as Hs.
    destruct (sortRanges br) as [| br0 rest]; [constructor |].
    apply sweep_settled, Hs.
Qed.

(** A settled slice is a fixed point of [mergeRanges]. *)
Lemma mergeRanges_settled_id (br : list Range) :
  Sorted settled br -> mergeRanges br = br.
Proof.
  intros Hs. rewrite mergeRanges_sweep.
  destruct (Z.of_nat (List.length br) <? 2); [reflexivity |].
  rewrite (sortRanges_sorted_id br (settled_sorted br Hs)).
  destruct br as [| a l]; [reflexivity | apply sweep_settled_id, Hs].
Qed.

Lemma mergeRanges_valid (br : list Range) :
  Forall valid br -> Forall valid (mergeRanges br).
Proof.
  intros Hv. rewrite mergeRanges_sweep.
  destruct (Z.of_nat (List.length br) <? 2); [exact Hv |].
  pose proof (Permutation_Forall (sortRanges_perm br) Hv) as Hv'.
  destruct (sortRanges br) as [| br0 rest]; [constructor |].
  inversion Hv'; subst. apply sweep_valid; assumption.
Qed.

Lemma mergeRanges_ends (br : list Range) (r : Range) :
  In r (mergeRanges br) ->
  (exists a, In a br /\ Start r = Start a) /\
  (exists b, In b br /\ Stop r = Stop b).
Proof.
  rewrite mergeRanges_sweep.
  destruct (Z.of_nat (List.length br) <? 2).
  - intros Hin. split; exists r; auto.
  - pose proof (sortRanges_perm br) as Hp.
    destruct (sortRanges br) as [| br0 rest]; [intros [] |].
    intros Hin. apply sweep_ends in Hin.
    destruct Hin as [(a & Ha & Hsa) (c & Hc & Hsc)].
    split; [exists a | exists c]; split; try assumption;
      eapply Permutation_in; try eassumption; apply Permutation_sym, Hp.
Qed.

Lemma covers_perm (l l' : list Range) (p : Z) :
  Permutation l l' -> covers l p = covers l' p.
Proof.
  unfold covers. induction 1 as [| x l l' _ IH | x y l | l l' l'' _ IH1 _ IH2]; simpl.
  - reflexivity.
  - rewrite IH. reflexivity.
  - rewrite !orb_assoc, (orb_comm (inRange p y)). reflexivity.
  - rewrite IH1. exact IH2.
Qed.

(** [mergeRanges] never adds a position: whatever its output covers, its
    input covers. *)
Lemma mergeRanges_covers_sound (br : list Range) (p : Z) :
  covers (mergeRanges br) p = true -> covers br p = true.
Proof.
  rewrite mergeRanges_sweep.
  destruct (Z.of_nat (List.length br) <? 2); [trivial |].
  rewrite (covers_perm br _ p (sortRanges_perm br)).
  destruct (sortRanges br) as [| br0 rest]; [trivial |].
  apply sweep_covers_sound.
Qed.

Lemma settled_valid_gap (l : list Range) :
  Sorted settled l -> Forall valid l -> Sorted gap l.
Proof.
  induction 1 as [| a l Hs IH Hhd]; intros Hv; [constructor |].
  inversion Hv as [| ? ? Ha Hl]; subst.
  constructor; [apply IH, Hl |].
  destruct Hhd as [| b l [Hle Hov]]; constructor.
  inversion Hl as [| ? ? Hb _]; subst.
  apply leRange_le in Hle. apply overlaps_false in Hov.
  unfold gap, valid in *. lia.
Qed.

(** [Sorted gap] read by positions: neighbours are strictly apart. *)
Lemma Sorted_gap_nth (l : list Range) :
  Sorted gap l ->
  forall (i : nat) (a b : Range),
    nth_error l i = Some a -> nth_error l (S i) = Some b -> Stop a < Start b.
Proof.
  induction 1 as [| x l Hs IH Hhd]; intros i a b Ha Hb.
  - destruct i; discriminate.
  - destruct i as [| i]; simpl in Ha, Hb.
    + injection Ha as <-. destruct Hhd as [| y l Hg]; [discriminate |].
      simpl in Hb. injection Hb as <-. exact Hg.
    + eapply IH; eassumption.
Qed.

Lemma gap_pairwise (l : list Range) :
  Sorted gap l -> Forall valid l -> StronglySorted gap l.
Proof.
  induction 1 as [| a l Hs IH Hhd]; intros Hv; [constructor |].
  inversion Hv as [| ? ? Ha Hl]; subst.
  specialize (IH Hl). constructor; [exact IH |].
  destruct Hhd as [| b l Hab]; constructor; [exact Hab |].
  inversion IH as [| ? ? _ Hb]; subst. inversion Hl as [| ? ? Hvb _]; subst.
  eapply Forall_impl; [| exact Hb].
  intros c Hc. unfold gap, valid in *. lia.
Qed.

(** [StronglySorted gap] read by positions: an earlier range ends strictly
    before a later one starts. *)
Lemma StronglySorted_gap_nth (l : list Range) :
  StronglySorted gap l ->
  forall (i j : nat) (a b : Range),
    (i < j)%nat -> nth_error l i = Some a -> nth_error l j = Some b ->
    Stop a < Start b.
Proof.
  induction 1 as [| x l Hs IH Hx]; intros i j a b Hij Ha Hb.
  - destruct i; discriminate.
  - destruct j as [| j]; [lia |]. simpl in Hb. destruct i as [| i]; simpl in Ha.
    + injection Ha as <-. rewrite Forall_forall in Hx.
      apply Hx. eapply nth_error_In, Hb.
    + apply (IH i j); [lia | assumption | assumption].
Qed.

(** ** Integers and numerals *)

(** [maxLen - y] does not wrap under the guard [0 <= y <= maxLen]. *)
Lemma sub_exact (a b : Z) :
  GoInt.in_range a -> 0 <= b <= a -> GoInt.sub a b = a - b.
Proof.
  unfold GoInt.in_range, GoInt.minInt, GoInt.maxInt, GoInt.sub, GoInt.wrap.
  intros Ha Hb. rewrite Z.mod_small; lia.
Qed.

Lemma parseUint_nonneg (s : string) (n v : Z) :
  0 <= n -> parseUint s n = inr v -> 0 <= v.
Proof.
  revert n. induction s as [| c cs IH]; intros n Hn; simpl.
  - intros [= <-]. exact Hn.
  - destruct (Z.ltb_spec (Z.of_nat (nat_of_ascii c) - 48) 0) as [| Hd];
      simpl; [discriminate |].
    destruct (9 <? Z.of_nat (nat_of_ascii c) - 48); [discriminate |].
    destruct (n >=? cutoff); [discriminate |].
    destruct (n * 10 + (Z.of_nat (nat_of_ascii c) - 48) >? maxUint64);
      [discriminate |].
    apply IH. lia.
Qed.

(** A failed [Atoi] reports the very text it was given. *)
Lemma Atoi_fail_text (s : string) (e : error) :
  Atoi s = Fail e -> exists k, e = NumError s k.
Proof.
  unfold Atoi. destruct s as [| c cs]; [intros [= <-]; eauto |].
  destruct (if (Ascii.eqb c "+" || Ascii.eqb c "-")%bool then cs else String c cs);
    [intros [= <-]; eauto |].
  destruct (parseUint _ 0) as [[|] | un]; try (intros [= <-]; eauto).
  destruct (negb (Ascii.eqb c "-") && (un >=? 2 ^ 63))%bool;
    [intros [= <-]; eauto |].
  destruct (Ascii.eqb c "-" && (un >? 2 ^ 63))%bool;
    [intros [= <-]; eauto | discriminate].
Qed.

(** What [Atoi] returns is an [int]. *)
Lemma Atoi_in_range (s : string) (v : Z) :
  Atoi s = Ok v -> GoInt.in_range v.
Proof.
  unfold Atoi. destruct s as [| c cs]; [discriminate |].
  destruct (if (Ascii.eqb c "+" || Ascii.eqb c "-")%bool then cs else String c cs)
    as [| d ds]; [discriminate |].
  destruct (parseUint (String d ds) 0) as [[|] | un] eqn:Hun; try discriminate.
  apply parseUint_nonneg in Hun; [| lia].
  unfold GoInt.in_range, GoInt.minInt, GoInt.maxInt.
  destruct (Ascii.eqb c "-"); cbn [negb andb].
  - destruct (Z.gtb_spec un (2 ^ 63)); [discriminate |]. intros [= <-]. lia.
  - destruct (Z.geb_spec un (2 ^ 63)); [discriminate |]. intros [= <-]. lia.
Qed.

(** A numeral without a minus sign denotes no negative number. *)
Lemma Atoi_nonneg (s : string) (v : Z) :
  contains s "-" = false -> Atoi s = Ok v -> 0 <= v.
Proof.
  unfold Atoi. destruct s as [| c cs]; [discriminate |].
  simpl contains. rewrite orb_false_iff. intros [Hc _]. rewrite Hc.
  rewrite orb_false_r.
  destruct (if Ascii.eqb c "+" then cs else String c cs) as [| d ds];
    [discriminate |].
  destruct (parseUint (String d ds) 0) as [[|] | un] eqn:Hun; try discriminate.
  apply parseUint_nonneg in Hun; [| lia].
  cbn [negb andb].
  destruct (un >=? 2 ^ 63); [discriminate |]. intros [= <-]. exact Hun.
Qed.

(** ** Splitting *)

Lemma Split_nonempty (s : string) (sep : ascii) : Split s sep <> [].
Proof.
  destruct s as [| c cs]; simpl; [discriminate |].
  destruct (Ascii.eqb c sep); [discriminate |].
  destruct (Split cs sep); discriminate.
Qed.

(** The separator occurs in none of the parts. *)
Lemma Split_no_sep (s : string) (sep : ascii) (p : string) :
  In p (Split s sep) -> contains p sep = false.
Proof.
  revert p. induction s as [| c cs IH]; intros p; simpl.
  - intros [<- | []]. reflexivity.
  - destruct (Ascii.eqb c sep) eqn:Hc.
    + intros [<- | Hin]; [reflexivity | apply IH, Hin].
    + destruct (Split cs sep) as [| q qs] eqn:Hq.
      * intros [<- | []]. simpl. rewrite Hc. reflexivity.
      * intros [<- | Hin].
        -- simpl. rewrite Hc. apply IH. left; reflexivity.
        -- apply IH. right; exact Hin.
Qed.

(** ** The token loop *)

Ltac zbool :=
  repeat match goal with
  | H : (_ || _)%bool = false |- _ =>
      apply orb_false_iff in H; destruct H
  | H : (_ <? _) = false |- _ => apply Z.ltb_ge in H
  | H : (_ >? _) = false |- _ => rewrite Z.gtb_ltb in H; apply Z.ltb_ge in H
  end.

Lemma guard_outside (maxLen v : Z) :
  ((v <? 0) || (v >? maxLen))%bool = true <-> outside maxLen v.
Proof.
  unfold outside. rewrite orb_true_iff, Z.gtb_ltb, !Z.ltb_lt. tauto.
Qed.

Lemma guard_closed (maxLen x y : Z) :
  ((x <? 0) || (y <? 0) || (x >? maxLen) || (y >? maxLen) || (x >? y))%bool
  = true <->
  outside maxLen x \/ outside maxLen y \/ y < x.
Proof.
  unfold outside. rewrite !orb_true_iff, !Z.gtb_ltb, !Z.ltb_lt. tauto.
Qed.

(** A range [Parse] reads from a token lies within the content. *)
Lemma parseRange_within (r : string) (maxLen : Z) (rg : Range) :
  GoInt.in_range maxLen -> parseRange r maxLen = Ok rg -> within maxLen rg.
Proof.
  intros Hm. unfold parseRange, within.
  destruct (Split r "-") as [| p0 [| p1 [| p2 ps]]]; try discriminate.
  destruct (String.eqb p0 ""); [| destruct (String.eqb p1 "")].
  - destruct (Atoi p1) as [y |]; [| discriminate].
    destruct ((y <? 0) || (y >? maxLen))%bool eqn:Hg; [discriminate |].
    intros [= <-]. simpl. zbool. rewrite sub_exact; [lia | exact Hm | lia].
  - destruct (Atoi p0) as [x |]; [| discriminate].
    destruct ((x <? 0) || (x >? maxLen))%bool eqn:Hg; [discriminate |].
    intros [= <-]. simpl. zbool. lia.
  - destruct (Atoi p0) as [x |]; [| discriminate].
    destruct (Atoi p1) as [y |]; [| discriminate].
    destruct ((x <? 0) || (y <? 0) || (x >? maxLen) || (y >? maxLen)
              || (x >? y))%bool eqn:Hg; [discriminate |].
    intros [= <-]. simpl. zbool. lia.
Qed.

Lemma parseTokens_Forall (P : Range -> Prop) (maxLen : Z) (toks : list string) :
  (forall r rg, parseRange r maxLen = Ok rg -> P rg) ->
  forall result out,
    Forall P result -> parseTokens toks maxLen result = Ok out -> Forall P out.
Proof.
  intros HP. induction toks as [| r toks IH]; intros result out Hres; simpl.
  - intros [= <-]. exact Hres.
  - destruct (parseRange r maxLen) as [rg |] eqn:Hr; [| discriminate].
    apply IH. apply Forall_app. split; [exact Hres |].
    constructor; [eapply HP; exact Hr | constructor].
Qed.

Lemma parseTokens_app (t1 t2 : list string) (maxLen : Z) (result : list Range) :
  parseTokens (t1 ++ t2) maxLen result =
  match parseTokens t1 maxLen result with
  | Fail err => Fail err
  | Ok result' => parseTokens t2 maxLen result'
  end.
Proof.
  revert result. induction t1 as [| r t1 IH]; intros result; simpl.
  - reflexivity.
  - destruct (parseRange r maxLen); [apply IH | reflexivity].
Qed.

(** The two nested loops visit the tokens of [tokens ranges prefix] one
    after the other. *)
Lemma parseEntries_tokens (ranges : list string) (prefix : string)
  (maxLen : Z) (result : list Range) :
  parseEntries ranges prefix maxLen result =
  parseTokens (tokens ranges prefix) maxLen result.
Proof.
  revert result. induction ranges as [| r ranges IH]; intros result; simpl.
  - reflexivity.
  - unfold tokens. simpl. rewrite parseTokens_app.
    destruct (parseTokens _ maxLen result); [apply IH | reflexivity].
Qed.

Lemma parseTokens_accepted (toks : list string) (maxLen : Z)
  (result : list Range) :
  Forall (accepted maxLen) toks ->
  exists out, parseTokens toks maxLen result = Ok out.
Proof.
  revert result. induction toks as [| r toks IH]; intros result Hacc; simpl.
  - eauto.
  - inversion Hacc as [| ? ? [rg Hr] Hacc']; subst.
    rewrite Hr. apply IH, Hacc'.
Qed.

(** The loop fails with the error of the first token it does not accept. *)
Lemma parseTokens_Fail (toks : list string) (maxLen : Z) (result : list Range)
  (e : error) :
  parseTokens toks maxLen result = Fail e <->
  exists pre tok post,
    toks = pre ++ tok :: post /\ Forall (accepted maxLen) pre /\
    parseRange tok maxLen = Fail e.
Proof.
  split.
  - revert result. induction toks as [| r toks IH]; intros result; simpl.
    + discriminate.
    + destruct (parseRange r maxLen) as [rg |] eqn:Hr.
      * intros H. destruct (IH _ H) as (pre & tok & post & -> & Hpre & Htok).
        exists (r :: pre), tok, post. repeat split; [| exact Htok].
        constructor; [exists rg; exact Hr | exact Hpre].
      * intros [= <-]. exists [], r, toks. repeat split; [constructor | exact Hr].
  - intros (pre & tok & post & -> & Hpre & Htok).
    rewrite parseTokens_app.
    destruct (parseTokens_accepted pre maxLen result Hpre) as [out ->].
    simpl. rewrite Htok. reflexivity.
Qed.

Lemma Parse_Fail (ranges : list string) (prefix : string) (maxLen : Z)
  (e : error) :
  Parse ranges prefix maxLen = Fail e <->
  exists pre tok post,
    tokens ranges prefix = pre ++ tok :: post /\
    Forall (accepted maxLen) pre /\
    parseRange tok maxLen = Fail e.
Proof.
  rewrite <- (parseTokens_Fail _ maxLen []), <- parseEntries_tokens.
  unfold Parse. destruct (parseEntries ranges prefix maxLen []).
  - split; discriminate.
  - split; intros [= <-]; reflexivity.
Qed.

Lemma Parse_Ok (ranges : list string) (prefix : string) (maxLen : Z)
  (out : list Range) :
  Parse ranges prefix maxLen = Ok out ->
  exists result,
    parseEntries ranges prefix maxLen [] = Ok result /\
    out = mergeRanges result.
Proof.
  unfold Parse. destruct (parseEntries ranges prefix maxLen []) as [result |].
  - intros [= <-]. exists result. auto.
  - discriminate.
Qed.

Lemma Parse_inputs_within (ranges : list string) (prefix : string)
  (maxLen : Z) (result : list Range) :
  GoInt.in_range maxLen ->
  parseEntries ranges prefix maxLen [] = Ok result ->
  Forall (within maxLen) result.
Proof.
  intros Hm. rewrite parseEntries_tokens.
  apply parseTokens_Forall; [| constructor].
  intros r rg. apply parseRange_within, Hm.
Qed.

(** ** The errors of one token *)

Lemma Atoi_NumError (s num : string) (k : numErr) :
  Atoi s = Fail (NumError num k) -> num = s.
Proof.
  intros H. destruct (Atoi_fail_text _ _ H) as [k' [= -> _]]. reflexivity.
Qed.

Lemma Atoi_not_Error (s : string) : Atoi s <> Fail Error.
Proof.
  intros H. destruct (Atoi_fail_text _ _ H) as [k Hk]. discriminate.
Qed.

(** A token is answered with the sentinel exactly when it is misshapen or
    its numerals parse and break a bound. *)
Lemma parseRange_Error (tok : string) (maxLen : Z) :
  parseRange tok maxLen = Fail Error <-> misshapen tok \/ violation maxLen tok.
Proof.
  split.
  - unfold parseRange, misshapen, violation.
    destruct (Split tok "-") as [| p0 [| p1 [| p2 ps]]];
      try (intros _; left; simpl; lia).
    intros H. right. exists p0, p1. split; [reflexivity |]. revert H.
    destruct (String.eqb_spec p0 "") as [-> | Hp0];
      [| destruct (String.eqb_spec p1 "") as [-> | Hp1]].
    + destruct (Atoi p1) as [y | e1] eqn:Hy.
      * destruct ((y <? 0) || (y >? maxLen))%bool eqn:Hg; [| discriminate].
        intros _. left. split; [reflexivity |].
        exists y. split; [reflexivity | apply guard_outside, Hg].
      * intros [= ->]. destruct (Atoi_not_Error _ Hy).
    + destruct (Atoi p0) as [x | e0] eqn:Hx.
      * destruct ((x <? 0) || (x >? maxLen))%bool eqn:Hg; [| discriminate].
        intros _. right; left. repeat split; [exact Hp0 |].
        exists x. split; [reflexivity | apply guard_outside, Hg].
      * intros [= ->]. destruct (Atoi_not_Error _ Hx).
    + destruct (Atoi p0) as [x | e0] eqn:Hx;
        [| intros [= ->]; destruct (Atoi_not_Error _ Hx)].
      destruct (Atoi p1) as [y | e1] eqn:Hy;
        [| intros [= ->]; destruct (Atoi_not_Error _ Hy)].
      destruct ((x <? 0) || (y <? 0) || (x >? maxLen) || (y >? maxLen)
                || (x >? y))%bool eqn:Hg; [| discriminate].
      intros _. right; right. repeat split; [exact Hp0 | exact Hp1 |].
      exists x, y. repeat split. apply guard_closed, Hg.
  - intros [Hm | (p0 & p1 & Hs & Hcase)]; unfold parseRange.
    + unfold misshapen in Hm.
      destruct (Split tok "-") as [| p0 [| p1 [| p2 ps]]]; try reflexivity.
      destruct Hm. reflexivity.
    + rewrite Hs.
      destruct Hcase as [(-> & y & Hy & Ho) |
                         [(Hp0 & -> & x & Hx & Ho) |
                          (Hp0 & Hp1 & x & y & Hx & Hy & Ho)]].
      * rewrite String.eqb_refl, Hy. apply guard_outside in Ho.
        rewrite Ho. reflexivity.
      * apply String.eqb_neq in Hp0. rewrite Hp0, String.eqb_refl, Hx.
        apply guard_outside in Ho. rewrite Ho. reflexivity.
      * apply String.eqb_neq in Hp0, Hp1. rewrite Hp0, Hp1, Hx, Hy.
        apply guard_closed in Ho. rewrite Ho. reflexivity.
Qed.

(** A token is answered with a numeral error exactly when one of its
    numerals does not parse; the error is the one [Atoi] gave for it. *)
Lemma parseRange_NumError (tok : string) (maxLen : Z) (num : string)
  (k : numErr) :
  parseRange tok maxLen = Fail (NumError num k) <-> malformed tok num k.
Proof.
  split.
  - unfold parseRange, malformed.
    destruct (Split tok "-") as [| p0 [| p1 [| p2 ps]]]; try discriminate.
    intros H. exists p0, p1. split; [reflexivity |]. revert H.
    destruct (String.eqb_spec p0 "") as [-> | Hp0];
      [| destruct (String.eqb_spec p1 "") as [-> | Hp1]].
    + destruct (Atoi p1) as [y | e1] eqn:Hy.
      * destruct ((y <? 0) || (y >? maxLen))%bool; discriminate.
      * intros [= ->]. pose proof (Atoi_NumError _ _ _ Hy) as Hn; subst num.
        auto.
    + destruct (Atoi p0) as [x | e0] eqn:Hx.
      * destruct ((x <? 0) || (x >? maxLen))%bool; discriminate.
      * intros [= ->]. pose proof (Atoi_NumError _ _ _ Hx) as Hn; subst num.
        auto.
    + destruct (Atoi p0) as [x | e0] eqn:Hx.
      * destruct (Atoi p1) as [y | e1] eqn:Hy.
        -- destruct ((x <? 0) || (y <? 0) || (x >? maxLen) || (y >? maxLen)
                     || (x >? y))%bool; discriminate.
        -- intros [= ->]. pose proof (Atoi_NumError _ _ _ Hy) as Hn; subst num.
           split; [exact Hy |]. right; right. eauto.
      * intros [= ->]. pose proof (Atoi_NumError _ _ _ Hx) as Hn; subst num.
        auto.
  - intros (p0 & p1 & Hs & Hnum & Hcase). unfold parseRange. rewrite Hs.
    destruct Hcase as [(-> & ->) | [(Hp0 & ->) | (Hp0 & Hp1 & [x Hx] & ->)]].
    + rewrite String.eqb_refl, Hnum. reflexivity.
    + apply String.eqb_neq in Hp0. rewrite Hp0, Hnum.
      destruct (String.eqb p1 ""); reflexivity.
    + apply String.eqb_neq in Hp0, Hp1. rewrite Hp0, Hp1, Hx, Hnum.
      reflexivity.
Qed.

(** No token is answered with anything but these two kinds of error. *)
Lemma parseRange_error_kinds (tok : string) (maxLen : Z) (e : error) :
  parseRange tok maxLen = Fail e ->
  e = Error \/ exists num k, e = NumError num k.
Proof.
  unfold parseRange.
  destruct (Split tok "-") as [| p0 [| p1 [| p2 ps]]];
    try (intros [= <-]; left; reflexivity).
  assert (Hat : forall s e', Atoi s = Fail e' ->
                             e' = Error \/ exists num k, e' = NumError num k).
  { intros s e' H. right. destruct (Atoi_fail_text _ _ H) as [k ->]. eauto. }
  destruct (String.eqb p0 ""); [| destruct (String.eqb p1 "")].
  - destruct (Atoi p1) as [y | e1] eqn:Hy.
    + destruct ((y <? 0) || (y >? maxLen))%bool; [| discriminate].
      intros [= <-]. auto.
    + intros [= <-]. eapply Hat, Hy.
  - destruct (Atoi p0) as [x | e0] eqn:Hx.
    + destruct ((x <? 0) || (x >? maxLen))%bool; [| discriminate].
      intros [= <-]. auto.
    + intros [= <-]. eapply Hat, Hx.
  - destruct (Atoi p0) as [x | e0] eqn:Hx; [| intros [= <-]; eapply Hat, Hx].
    destruct (Atoi p1) as [y | e1] eqn:Hy; [| intros [= <-]; eapply Hat, Hy].
    destruct ((x <? 0) || (y <? 0) || (x >? maxLen) || (y >? maxLen)
              || (x >? y))%bool; [| discriminate].
    intros [= <-]. auto.
Qed.

(** ** Prefixes and tokens without separators *)

Lemma TrimPrefix_app (prefix s : string) :
  TrimPrefix (prefix ++ s)%string prefix = s.
Proof.
  unfold TrimPrefix.
  assert (H : HasPrefix (prefix ++ s)%string prefix = true
              /\ drop (String.length prefix) (prefix ++ s)%string = s).
  { induction prefix as [| c p [IH1 IH2]]; simpl.
    - destruct s; auto.
    - rewrite Ascii.eqb_refl, IH1, IH2. auto. }
  destruct H as [-> ->]. reflexivity.
Qed.

Lemma Split_single (s : string) (sep : ascii) (q : string) :
  Split s sep = [q] -> s = q.
Proof.
  revert q. induction s as [| c cs IH]; intros q; simpl.
  - intros [= <-]. reflexivity.
  - destruct (Ascii.eqb c sep).
    + intros [= _ H]. destruct (Split_nonempty _ _ H).
    + destruct (Split cs sep) as [| p ps] eqn:Hs;
        [destruct (Split_nonempty _ _ Hs) |].
      intros [= <- ->]. rewrite (IH p eq_refl). reflexivity.
Qed.

Lemma Split_absent (s : string) (sep : ascii) :
  contains s sep = false -> Split s sep = [s].
Proof.
  induction s as [| c cs IH]; simpl; [reflexivity |].
  rewrite orb_false_iff. intros [-> Hcs]. rewrite (IH Hcs). reflexivity.
Qed.

(** A token whose first part is empty and that has one more part is the
    separator followed by that part. *)
Lemma Split_suffix_form (s : string) (sep : ascii) (q : string) :
  Split s sep = [EmptyString; q] -> s = String sep q.
Proof.
  destruct s as [| c cs]; simpl; [discriminate |].
  destruct (Ascii.eqb_spec c sep) as [-> | Hc].
  - intros [= H]. rewrite (Split_single _ _ _ H). reflexivity.
  - destruct (Split cs sep); discriminate.
Qed.

Lemma parseUint_no_comma (s : string) (n v : Z) :
  parseUint s n = inr v -> contains s "," = false.
Proof.
  revert n. induction s as [| c cs IH]; intros n; simpl; [reflexivity |].
  destruct (Z.of_nat (nat_of_ascii c) - 48 <? 0) eqn:Hd; [discriminate |].
  destruct (9 <? Z.of_nat (nat_of_ascii c) - 48); [discriminate |].
  destruct (n >=? cutoff); [discriminate |].
  destruct (n * 10 + (Z.of_nat (nat_of_ascii c) - 48) >? maxUint64);
    [discriminate |].
  intros H. rewrite (IH _ H), orb_false_r.
  destruct (Ascii.eqb_spec c ",") as [-> | _]; [| reflexivity].
  vm_compute in Hd. discriminate.
Qed.

(** A numeral [Atoi] accepts holds no comma. *)
Lemma Atoi_no_comma (s : string) (v : Z) :
  Atoi s = Ok v -> contains s "," = false.
Proof.
  unfold Atoi. destruct s as [| c cs]; [discriminate |].
  destruct (Ascii.eqb_spec c "+") as [-> | Hplus];
    [| destruct (Ascii.eqb_spec c "-") as [-> | Hminus]]; cbn [orb].
  - destruct cs as [| d ds]; [discriminate |].
    destruct (parseUint (String d ds) 0) as [[|] | un] eqn:Hun; try discriminate.
    intros _. apply parseUint_no_comma in Hun.
    change (contains (String "+" (String d ds)) ",")
      with (contains (String d ds) ","). exact Hun.
  - destruct cs as [| d ds]; [discriminate |].
    destruct (parseUint (String d ds) 0) as [[|] | un] eqn:Hun; try discriminate.
    intros _. apply parseUint_no_comma in Hun.
    change (contains (String "-" (String d ds)) ",")
      with (contains (String d ds) ","). exact Hun.
  - destruct (parseUint (String c cs) 0) as [[|] | un] eqn:Hun; try discriminate.
    intros _. eapply parseUint_no_comma, Hun.
Qed.

(** ** [Parse] as a whole *)

Lemma Parse_error_kinds (ranges : list string) (prefix : string) (maxLen : Z)
  (e : error) :
  Parse ranges prefix maxLen = Fail e ->
  e = Error \/ exists num k, e = NumError num k.
Proof.
  rewrite Parse_Fail. intros (pre & tok & post & _ & _ & H).
  eapply parseRange_error_kinds, H.
Qed.

Lemma rejected_not_accepted (tok : string) (maxLen : Z) (e : error) :
  parseRange tok maxLen = Fail e -> ~ accepted maxLen tok.
Proof. intros H [rg Hrg]. rewrite H in Hrg. discriminate. Qed.

(** [Parse] fails with [e] exactly when the first token it does not accept
    is answered with [e]. *)
Lemma Parse_Fail_first (ranges : list string) (prefix : string) (maxLen : Z)
  (e : error) :
  Parse ranges prefix maxLen = Fail e <->
  exists tok, first_rejected ranges prefix maxLen tok /\
              parseRange tok maxLen = Fail e.
Proof.
  rewrite Parse_Fail. split.
  - intros (pre & tok & post & Heq & Hpre & Htok).
    exists tok. split; [| exact Htok].
    exists pre, post. repeat split; try assumption.
    eapply rejected_not_accepted, Htok.
  - intros (tok & (pre & post & Heq & Hpre & _) & Htok).
    exists pre, tok, post. auto.
Qed.

(** A token of the suffix form [-Y] whose numeral lies within the content
    denotes the last [Y] positions together with position [maxLen]. *)
Lemma parseRange_suffix (tok ytxt : string) (maxLen y : Z) :
  GoInt.in_range maxLen ->
  Split tok "-" = [EmptyString; ytxt] -> Atoi ytxt = Ok y ->
  0 <= y <= maxLen ->
  parseRange tok maxLen = Ok {| Start := maxLen - y; Stop := maxLen |}.
Proof.
  intros Hm Hs Hy Hb. unfold parseRange. rewrite Hs, String.eqb_refl, Hy.
  destruct ((y <? 0) || (y >? maxLen))%bool eqn:Hg.
  - apply guard_outside in Hg. unfold outside in Hg. lia.
  - rewrite sub_exact; [reflexivity | exact Hm | exact Hb].
Qed.

Lemma Parse_suffix_entry (prefix tok ytxt : string) (maxLen y : Z) :
  GoInt.in_range maxLen ->
  Split tok "-" = [EmptyString; ytxt] -> Atoi ytxt = Ok y ->
  0 <= y <= maxLen ->
  Parse [(prefix ++ tok)%string] prefix maxLen
  = Ok [ {| Start := maxLen - y; Stop := maxLen |} ].
Proof.
  intros Hm Hs Hy Hb.
  pose proof (parseRange_suffix _ _ _ _ Hm Hs Hy Hb) as Hr.
  unfold Parse. simpl parseEntries. rewrite TrimPrefix_app.
  rewrite Split_absent.
  - simpl. rewrite Hr. reflexivity.
  - rewrite (Split_suffix_form _ _ _ Hs). simpl.
    eapply Atoi_no_comma, Hy.
Qed.

(** ** The cases of the package's tests *)

Example test_outside_maxLen :
  Parse ["bytes=0-99"; "bytes=50-99"; "bytes=200-300"; "bytes=250-"] "bytes=" 200
  = Fail Error.
Proof. vm_compute. reflexivity. Qed.

Example test_wrong_prefix :
  Parse ["foo=0-100"] "bytes=" 200 = Fail (NumError "foo=0" ErrSyntax).
Proof. vm_compute. reflexivity. Qed.

Example test_empty : Parse [] "" 0 = Ok [].
Proof. reflexivity. Qed.

Example test_header_happy_path :
  ParseHeader [("Range", ["100-200"]); ("Content-Length", ["300"])]
  = Ok [ {| Start := 100; Stop := 200 |} ].
Proof. vm_compute. reflexivity. Qed.

Example Atoi_samples :
  Atoi "+5" = Ok 5 /\ Atoi "-0" = Ok 0 /\ Atoi "" = Fail (NumError "" ErrSyntax)
  /\ Atoi "9223372036854775807" = Ok GoInt.maxInt
  /\ Atoi "9223372036854775808" = Fail (NumError "9223372036854775808" ErrRange)
  /\ Atoi "-9223372036854775808" = Ok GoInt.minInt
  /\ Atoi "1_0" = Fail (NumError "1_0" ErrSyntax).
Proof. repeat split; vm_compute; reflexivity. Qed.

(** ** The comparisons with zero in [Parse] *)

Lemma nonneg_ltb (v : Z) : 0 <= v -> (v <? 0) = false.
Proof. intros H. apply Z.ltb_ge, H. Qed.

(** On every token the loop body answers as it would without the
    comparisons [x < 0] and [y < 0]: the parts it hands to [Atoi] hold no
    ['-'], so the numbers it gets back are not negative. *)
Lemma parseRange_NoNeg (r : string) (maxLen : Z) :
  parseRange r maxLen = parseRangeNoNeg r maxLen.
Proof.
  unfold parseRange, parseRangeNoNeg.
  pose proof (Split_no_sep r "-") as Hparts.
  destruct (Split r "-") as [| p0 [| p1 [| p2 ps]]]; try reflexivity.
  assert (H0 : forall x, Atoi p0 = Ok x -> (x <? 0) = false).
  { intros x Hx. apply nonneg_ltb. eapply Atoi_nonneg; [| exact Hx].
    apply Hparts. simpl. auto. }
  assert (H1 : forall y, Atoi p1 = Ok y -> (y <? 0) = false).
  { intros y Hy. apply nonneg_ltb. eapply Atoi_nonneg; [| exact Hy].
    apply Hparts. simpl. auto. }
  destruct (String.eqb p0 ""); [| destruct (String.eqb p1 "")].
  - destruct (Atoi p1) as [y |]; [| reflexivity].
    rewrite (H1 y eq_refl). reflexivity.
  - destruct (Atoi p0) as [x |]; [| reflexivity].
    rewrite (H0 x eq_refl). reflexivity.
  - destruct (Atoi p0) as [x |]; [| reflexivity].
    destruct (Atoi p1) as [y |]; [| reflexivity].
    rewrite (H0 x eq_refl), (H1 y eq_refl). reflexivity.
Qed.

Lemma parseTokensWith_ext (f g : string -> Z -> res Range)
  (toks : list string) (maxLen : Z) (result : list Range) :
  (forall r, f r maxLen = g r maxLen) ->
  parseTokensWith f toks maxLen result = parseTokensWith g toks maxLen result.
Proof.
  intros Hfg. revert result. induction toks as [| r toks IH]; intros result;
    simpl; [reflexivity |].
  rewrite Hfg. destruct (g r maxLen); [apply IH | reflexivity].
Qed.

Lemma ParseWith_ext (f g : string -> Z -> res Range)
  (ranges : list string) (prefix : string) (maxLen : Z) :
  (forall r, f r maxLen = g r maxLen) ->
  ParseWith f ranges prefix maxLen = ParseWith g ranges prefix maxLen.
Proof.
  intros Hfg. unfold ParseWith.
  assert (H : forall result,
             parseEntriesWith f ranges prefix maxLen result
             = parseEntriesWith g ranges prefix maxLen result).
  { induction ranges as [| r ranges IH]; intros result; simpl; [reflexivity |].
    rewrite (parseTokensWith_ext f g _ _ _ Hfg).
    destruct (parseTokensWith g _ maxLen result); [apply IH | reflexivity]. }
  rewrite H. reflexivity.
Qed.

(** [ParseWith] run with the loop body of the source is [Parse]. *)
Lemma ParseWith_parseRange (ranges : list string) (prefix : string)
  (maxLen : Z) :
  ParseWith parseRange ranges prefix maxLen = Parse ranges prefix maxLen.
Proof.
  unfold ParseWith, Parse.
  assert (Ht : forall toks result,
             parseTokensWith parseRange toks maxLen result
             = parseTokens toks maxLen result).
  { induction toks as [| r toks IH]; intros result; simpl; [reflexivity |].
    destruct (parseRange r maxLen); [apply IH | reflexivity]. }
  assert (He : forall result,
             parseEntriesWith parseRange ranges prefix maxLen result
             = parseEntries ranges prefix maxLen result).
  { induction ranges as [| r ranges IH]; intros result; simpl; [reflexivity |].
    rewrite Ht.
    destruct (parseTokens _ maxLen result); [apply IH | reflexivity]. }
  rewrite He. reflexivity.
Qed.

Lemma Split_cons_length (c sep : ascii) (s : string) :
  List.length (Split (String c s) sep) =
  if Ascii.eqb c sep then S (List.length (Split s sep))
  else List.length (Split s sep).
Proof.
  simpl. destruct (Ascii.eqb c sep); [reflexivity |].
  destruct (Split s sep) as [| p ps] eqn:Hs; [| reflexivity].
  destruct (Split_nonempty _ _ Hs).
Qed.

Lemma Split_length_pos (s : string) (sep : ascii) :
  (1 <= List.length (Split s sep))%nat.
Proof.
  pose proof (Split_nonempty s sep). destruct (Split s sep); simpl; [tauto | lia].
Qed.

Lemma Split_length_app (a b : string) (sep : ascii) :
  (List.length (Split (a ++ b) sep) + 1 =
   List.length (Split a sep) + List.length (Split b sep))%nat.
Proof.
  induction a as [| c a IH].
  - simpl. lia.
  - change (String c a ++ b)%string with (String c (a ++ b)%string).
    rewrite !Split_cons_length. destruct (Ascii.eqb c sep); lia.
Qed.

Lemma Split_length_contains (s : string) (sep : ascii) :
  contains s sep = true -> (2 <= List.length (Split s sep))%nat.
Proof.
  induction s as [| c s IH]; [discriminate |].
  rewrite Split_cons_length. simpl contains.
  pose proof (Split_length_pos s sep).
  destruct (Ascii.eqb c sep); simpl; [lia | exact IH].
Qed.

(** A numeral [Atoi] reads as a negative number holds a ['-']. *)
Lemma Atoi_neg_contains (n : string) (v : Z) :
  Atoi n = Ok v -> v < 0 -> contains n "-" = true.
Proof.
  intros Hv Hneg. destruct (contains n "-") eqn:Hc; [reflexivity |].
  pose proof (Atoi_nonneg _ _ Hc Hv). lia.
Qed.

(** A token with a negative numeral before or behind its ['-'] has more
    than two parts. *)
Lemma negative_field_misshapen (n q : string) (v : Z) :
  Atoi n = Ok v -> v < 0 ->
  misshapen (n ++ "-" ++ q) /\ misshapen (q ++ "-" ++ n).
Proof.
  intros Hv Hneg.
  pose proof (Split_length_contains _ _ (Atoi_neg_contains _ _ Hv Hneg)) as Hn.
  pose proof (Split_length_pos q "-") as Hq.
  unfold misshapen. split.
  - pose proof (Split_length_app n ("-" ++ q) "-") as H.
    change ("-" ++ q)%string with (String "-" q) in *.
    rewrite Split_cons_length, Ascii.eqb_refl in H. lia.
  - pose proof (Split_length_app q ("-" ++ n) "-") as H.
    change ("-" ++ n)%string with (String "-" n) in *.
    rewrite Split_cons_length, Ascii.eqb_refl in H. lia.
Qed.

(** * The claims *)

(** C2. [Parse] on the three entries ["bytes=0-99"], ["bytes=50-99,200-300"]
    and ["bytes=250-,-50"], with prefix ["bytes="] and [maxLen = 350], succeeds
    with exactly the ranges (0,99) and (200,350), in that order. *)
Theorem Parse_merged_scenario :
  Parse ["bytes=0-99"; "bytes=50-99,200-300"; "bytes=250-,-50"] "bytes=" 350
  = Ok [ {| Start := 0; Stop := 99 |}; {| Start := 200; Stop := 350 |} ].
Proof. vm_compute. reflexivity. Qed.


(** C1. Defect in [mergeRanges]: [Range.merge] keeps the stop of the later
    range, which is the smaller one when the later range lies inside the
    accumulator. [Parse] on ["bytes=0-100,10-20"] returns the single range
    (0,20): position 50, covered by the input range (0,100), is covered by
    no range of the output. *)
Theorem mergeRanges_loses_positions :
  Parse ["bytes=0-100,10-20"] "bytes=" 200 = Ok [ {| Start := 0; Stop := 20 |} ]
  /\ mergeRanges [ {| Start := 0; Stop := 100 |}; {| Start := 10; Stop := 20 |} ]
     = [ {| Start := 0; Stop := 20 |} ]
  /\ covers [ {| Start := 0; Stop := 100 |}; {| Start := 10; Stop := 20 |} ] 50
     = true
  /\ covers
       (mergeRanges
          [ {| Start := 0; Stop := 100 |}; {| Start := 10; Stop := 20 |} ]) 50
     = false.
Proof. repeat split; vm_compute; reflexivity. Qed.

(** C3. After a successful [Parse], every two neighbours [a], [b] of the
    returned slice satisfy [Stop a < Start b], and every returned range
    satisfies [Start <= Stop]; hence the slice ascends strictly by [Start]
    and any earlier range ends before any later one starts. *)
Theorem Parse_sorted_disjoint
  (ranges : list string) (prefix : string) (maxLen : Z) (out : list Range) :
  GoInt.in_range maxLen ->
  Parse ranges prefix maxLen = Ok out ->
  (forall (i : nat) (a b : Range),
      nth_error out i = Some a -> nth_error out (S i) = Some b ->
      Stop a < Start b)
  /\ Forall (fun r => Start r <= Stop r) out
  /\ (forall (i j : nat) (a b : Range),
        (i < j)%nat -> nth_error out i = Some a -> nth_error out j = Some b ->
        Start a < Start b /\ Stop a < Start b).
Proof.
  intros Hm Hp. destruct (Parse_Ok _ _ _ _ Hp) as (result & Hres & ->).
  assert (Hv : Forall valid (mergeRanges result)).
  { apply mergeRanges_valid.
    eapply Forall_impl; [| exact (Parse_inputs_within _ _ _ _ Hm Hres)].
    intros r (_ & H & _). exact H. }
  assert (Hg : Sorted gap (mergeRanges result))
    by (apply settled_valid_gap; [apply mergeRanges_settled | exact Hv]).
  split; [apply Sorted_gap_nth, Hg |]. split; [exact Hv |].
  intros i j a b Hij Ha Hb.
  pose proof (StronglySorted_gap_nth _ (gap_pairwise _ Hg Hv) i j a b Hij Ha Hb).
  rewrite Forall_forall in Hv. apply nth_error_In, Hv in Ha.
  unfold valid in Ha. lia.
Qed.

Lemma Parse_sorted_disjoint_witness :
  (forall (i : nat) (a b : Range),
      nth_error [ {| Start := 0; Stop := 99 |}; {| Start := 200; Stop := 350 |} ] i
      = Some a ->
      nth_error [ {| Start := 0; Stop := 99 |}; {| Start := 200; Stop := 350 |} ]
        (S i) = Some b ->
      Stop a < Start b)
  /\ Forall (fun r => Start r <= Stop r)
       [ {| Start := 0; Stop := 99 |}; {| Start := 200; Stop := 350 |} ]
  /\ (forall (i j : nat) (a b : Range),
        (i < j)%nat ->
        nth_error [ {| Start := 0; Stop := 99 |}; {| Start := 200; Stop := 350 |} ] i
        = Some a ->
        nth_error [ {| Start := 0; Stop := 99 |}; {| Start := 200; Stop := 350 |} ] j
        = Some b ->
        Start a < Start b /\ Stop a < Start b).
Proof.
  apply (Parse_sorted_disjoint
           ["bytes=0-99"; "bytes=50-99,200-300"; "bytes=250-,-50"] "bytes=" 350).
  - unfold GoInt.in_range, GoInt.minInt, GoInt.maxInt. lia.
  - vm_compute. reflexivity.
Defined.

(** C4. After a successful [Parse] with content length [maxLen], every
    returned range satisfies [0 <= Start <= Stop <= maxLen]. *)
Theorem Parse_within_bounds
  (ranges : list string) (prefix : string) (maxLen : Z) (out : list Range) :
  GoInt.in_range maxLen ->
  Parse ranges prefix maxLen = Ok out ->
  Forall (fun r => 0 <= Start r /\ Start r <= Stop r /\ Stop r <= maxLen) out.
Proof.
  intros Hm Hp. destruct (Parse_Ok _ _ _ _ Hp) as (result & Hres & ->).
  pose proof (Parse_inputs_within _ _ _ _ Hm Hres) as Hin.
  assert (Hv : Forall valid (mergeRanges result)).
  { apply mergeRanges_valid. eapply Forall_impl; [| exact Hin].
    intros r (_ & H & _). exact H. }
  rewrite Forall_forall in *. intros r Hr.
  destruct (mergeRanges_ends _ _ Hr) as [(a & Ha & Hsa) (b & Hb & Hsb)].
  destruct (Hin a Ha) as (Ha0 & _ & _). destruct (Hin b Hb) as (_ & _ & Hb1).
  specialize (Hv r Hr). unfold valid in Hv. lia.
Qed.

Lemma Parse_within_bounds_witness :
  Forall (fun r => 0 <= Start r /\ Start r <= Stop r /\ Stop r <= 350)
    [ {| Start := 0; Stop := 99 |}; {| Start := 200; Stop := 350 |} ].
Proof.
  apply (Parse_within_bounds
           ["bytes=0-99"; "bytes=50-99,200-300"; "bytes=250-,-50"] "bytes=" 350).
  - unfold GoInt.in_range, GoInt.minInt, GoInt.maxInt. lia.
  - vm_compute. reflexivity.
Defined.

(** C7. [mergeRanges] is idempotent: merging a merged slice changes
    nothing, whatever ranges the slice holds. *)
Theorem mergeRanges_idempotent (xs : list Range) :
  mergeRanges (mergeRanges xs) = mergeRanges xs.
Proof. apply mergeRanges_settled_id, mergeRanges_settled. Qed.

(** C8. [mergeRanges] does not depend on the order of its input: on a
    permutation [ys] of [xs] it returns what it returns on [xs]. *)
Theorem mergeRanges_permutation (xs ys : list Range) :
  Permutation xs ys -> mergeRanges ys = mergeRanges xs.
Proof.
  intros Hp. rewrite !mergeRanges_sweep, <- (Permutation_length Hp).
  destruct (Z.of_nat (List.length xs) <? 2) eqn:Hlen.
  - destruct (short_slice xs Hlen) as [-> | [x ->]].
    + apply Permutation_nil in Hp. exact Hp.
    + apply Permutation_length_1_inv in Hp. exact Hp.
  - rewrite (sortRanges_unique xs (sortRanges ys)); [reflexivity | |].
    + eapply perm_trans; [exact Hp | apply sortRanges_perm].
    + apply sortRanges_sorted.
Qed.

Lemma mergeRanges_permutation_witness :
  mergeRanges [ {| Start := 10; Stop := 30 |}; {| Start := 0; Stop := 15 |};
                {| Start := 40; Stop := 50 |} ]
  = mergeRanges [ {| Start := 0; Stop := 15 |}; {| Start := 40; Stop := 50 |};
                  {| Start := 10; Stop := 30 |} ].
Proof.
  apply mergeRanges_permutation.
  eapply perm_trans; [apply perm_skip, perm_swap | apply perm_swap].
Defined.

(** C5 (as the code has it). [ParseHeader] answers with the "invalid content
    length" error, carrying the values stored under [Content-Length], exactly
    when [Atoi] rejects the first of these values, the empty string standing
    for a missing header. A value [Atoi] accepts, a negative one included, is
    handed to [Parse] as [maxLen]. *)
Theorem ParseHeader_content_length (h : Header) :
  ((exists vs, ParseHeader h = Fail (InvalidContentLength vs)) <->
   (exists e, Atoi (Get h "Content-Length") = Fail e))
  /\ (forall e, Atoi (Get h "Content-Length") = Fail e ->
      ParseHeader h = Fail (InvalidContentLength (index h "Content-Length")))
  /\ (index h "Content-Length" = [] ->
      ParseHeader h = Fail (InvalidContentLength []))
  /\ (forall length, Atoi (Get h "Content-Length") = Ok length ->
      ParseHeader h = Parse (index h "Range") "bytes=" length).
Proof.
  unfold ParseHeader. repeat split.
  - intros [vs H]. destruct (Atoi (Get h "Content-Length")) as [n | e]; [| eauto].
    destruct (Parse_error_kinds _ _ _ _ H) as [He | (num & k & He)];
      discriminate.
  - intros [e ->]. eauto.
  - intros e ->. reflexivity.
  - intros Hnil. unfold Get. rewrite Hnil. reflexivity.
  - intros n ->. reflexivity.
Qed.

(** C5, as stated, fails: the content length ["-5"] is accepted as [-5] and
    the range that follows is answered with the sentinel, not with the
    "invalid content length" error. *)
Lemma ParseHeader_negative_length :
  Atoi (Get [("Content-Length", ["-5"]); ("Range", ["bytes=0-1"])]
          "Content-Length") = Ok (-5)
  /\ ParseHeader [("Content-Length", ["-5"]); ("Range", ["bytes=0-1"])]
     = Fail Error
  /\ ParseHeader [("Content-Length", ["-5"]); ("Range", ["bytes=0-1"])]
     <> Fail (InvalidContentLength ["-5"]).
Proof. repeat split; [vm_compute; reflexivity .. | vm_compute; discriminate]. Qed.

(** C6 (as the code has it). [Parse] fails with the error of the first token
    it does not accept. It fails with the sentinel exactly when that token
    does not split on ['-'] into two parts or, its numerals parsing, breaks a
    bound; it fails with [NumError num k] exactly when [num] is the first
    numeral of that token that [Atoi] rejects, the error being the one
    [Atoi] returned. It fails with no other error. *)
Theorem Parse_error_of_first_rejected
  (ranges : list string) (prefix : string) (maxLen : Z) :
  (Parse ranges prefix maxLen = Fail Error <->
   exists tok, first_rejected ranges prefix maxLen tok /\
               (misshapen tok \/ violation maxLen tok))
  /\ (forall num k,
      Parse ranges prefix maxLen = Fail (NumError num k) <->
      exists tok, first_rejected ranges prefix maxLen tok /\
                  malformed tok num k)
  /\ (forall e, Parse ranges prefix maxLen = Fail e ->
      e = Error \/ exists num k, e = NumError num k).
Proof.
  split; [| split].
  - rewrite Parse_Fail_first.
    split; intros (tok & Hf & H); exists tok; (split; [exact Hf |]);
      apply (parseRange_Error tok maxLen); exact H.
  - intros num k. rewrite Parse_Fail_first.
    split; intros (tok & Hf & H); exists tok; (split; [exact Hf |]);
      apply (parseRange_NumError tok maxLen num k); exact H.
  - apply Parse_error_kinds.
Qed.

(** C6, as stated, fails where more than one thing is wrong: the token
    ["5-3"] has its start after its stop, yet [Parse] answers with the error
    of the numeral ["x"] that comes first; with the tokens swapped the
    numeral ["x"] still does not parse, yet [Parse] answers with the
    sentinel; and in the single token ["999-x"] the parsed bound 999 lies
    outside [0, 10], yet [Parse] answers with the error of the numeral
    ["x"]. *)
Lemma Parse_first_error_wins :
  Parse ["bytes=x-1,5-3"] "bytes=" 10 = Fail (NumError "x" ErrSyntax)
  /\ In "5-3" (tokens ["bytes=x-1,5-3"] "bytes=")
  /\ violation 10 "5-3"
  /\ Parse ["bytes=5-3,x-1"] "bytes=" 10 = Fail Error
  /\ In "x-1" (tokens ["bytes=5-3,x-1"] "bytes=")
  /\ malformed "x-1" "x" ErrSyntax
  /\ Parse ["bytes=999-x"] "bytes=" 10 = Fail (NumError "x" ErrSyntax)
  /\ Split "999-x" "-" = ["999"; "x"]
  /\ Atoi "999" = Ok 999
  /\ outside 10 999.
Proof.
  split; [vm_compute; reflexivity |].
  split; [vm_compute; auto |].
  split.
  { exists "5", "3". split; [reflexivity |]. right; right.
    repeat split; try discriminate.
    exists 5, 3. repeat split. right; right. lia. }
  split; [vm_compute; reflexivity |].
  split; [vm_compute; auto |].
  split.
  { exists "x", "1". split; [reflexivity |]. split; [reflexivity |].
    right; left. split; [discriminate | reflexivity]. }
  split; [vm_compute; reflexivity |].
  split; [reflexivity |].
  split; [reflexivity |].
  right. lia.
Qed.

(** C9. A token of the suffix form, an empty first part and a numeral [Y]
    with [0 <= Y <= maxLen], makes [Parse] produce the range
    [(maxLen - Y, maxLen)]; a suffix of length 0 is accepted and gives the
    range [(maxLen, maxLen)]. *)
Theorem Parse_suffix_form (prefix tok ytxt : string) (maxLen y : Z) :
  GoInt.in_range maxLen ->
  Split tok "-" = [EmptyString; ytxt] -> Atoi ytxt = Ok y ->
  0 <= y <= maxLen ->
  parseRange tok maxLen = Ok {| Start := maxLen - y; Stop := maxLen |}
  /\ Parse [(prefix ++ tok)%string] prefix maxLen
     = Ok [ {| Start := maxLen - y; Stop := maxLen |} ]
  /\ Parse [(prefix ++ "-0")%string] prefix maxLen
     = Ok [ {| Start := maxLen; Stop := maxLen |} ].
Proof.
  intros Hm Hs Hy Hb. split; [| split].
  - eapply parseRange_suffix; eassumption.
  - eapply Parse_suffix_entry; eassumption.
  - rewrite (Parse_suffix_entry prefix "-0" "0" maxLen 0 Hm eq_refl eq_refl);
      [| lia].
    rewrite Z.sub_0_r. reflexivity.
Qed.

Lemma Parse_suffix_form_witness :
  parseRange "-50" 350 = Ok {| Start := 350 - 50; Stop := 350 |}
  /\ Parse [("bytes=" ++ "-50")%string] "bytes=" 350
     = Ok [ {| Start := 350 - 50; Stop := 350 |} ]
  /\ Parse [("bytes=" ++ "-0")%string] "bytes=" 350
     = Ok [ {| Start := 350; Stop := 350 |} ].
Proof.
  apply (Parse_suffix_form "bytes=" "-50" "50" 350 50).
  - unfold GoInt.in_range, GoInt.minInt, GoInt.maxInt. lia.
  - reflexivity.
  - reflexivity.
  - lia.
Defined.

(** C10. In [Parse], no part of a token split on ['-'] holds a ['-'], so a
    part [Atoi] accepts denotes no negative number and the comparisons
    [x < 0] and [y < 0] are false wherever they are evaluated. The path from
    a negative bound to the invalid-range error is therefore never taken:
    on every token the loop body, and on every input [Parse], returns what
    it returns with these comparisons deleted. A token with a negative
    numeral before or behind its ['-'] is rejected earlier, by the test for
    two parts. *)
Theorem negative_bound_unreachable
  (ranges : list string) (prefix r : string) (maxLen : Z) :
  Forall (fun p => contains p "-" = false) (Split r "-")
  /\ (forall p v, In p (Split r "-") -> Atoi p = Ok v ->
      0 <= v /\ (v <? 0) = false)
  /\ parseRange r maxLen = parseRangeNoNeg r maxLen
  /\ Parse ranges prefix maxLen
     = ParseWith parseRangeNoNeg ranges prefix maxLen
  /\ (forall n q v, Atoi n = Ok v -> v < 0 ->
      misshapen (n ++ "-" ++ q) /\ misshapen (q ++ "-" ++ n)
      /\ parseRange (n ++ "-" ++ q) maxLen = Fail Error
      /\ parseRange (q ++ "-" ++ n) maxLen = Fail Error).
Proof.
  split; [| split; [| split; [| split]]].
  - apply Forall_forall. intros p Hp. eapply Split_no_sep, Hp.
  - intros p v Hin Hv.
    pose proof (Atoi_nonneg _ _ (Split_no_sep _ _ _ Hin) Hv) as Hnn.
    split; [exact Hnn | apply nonneg_ltb, Hnn].
  - apply parseRange_NoNeg.
  - rewrite <- ParseWith_parseRange. apply ParseWith_ext.
    intros tok. apply parseRange_NoNeg.
  - intros n q v Hv Hneg.
    destruct (negative_field_misshapen n q v Hv Hneg) as [H1 H2].
    repeat split; try assumption;
      apply parseRange_Error; left; assumption.
Qed.

(** * Further properties of the package *)

(** ** [overlaps], [merge] and [Less] *)

Lemma inRange_iff (p : Z) (r : Range) :
  inRange p r = true <-> Start r <= p <= Stop r.
Proof. unfold inRange. rewrite andb_true_iff, !Z.leb_le. tauto. Qed.

Lemma bool_eq_iff (x y : bool) : (x = true <-> y = true) -> x = y.
Proof. destruct x, y; intuition congruence. Qed.

Lemma merge_covers (b c : Range) (p : Z) :
  overlaps b c = true -> Start b <= Start c -> Stop b <= Stop c ->
  inRange p (merge b c) = (inRange p b || inRange p c)%bool.
Proof.
  intros Hov Hs Ht. apply overlaps_true in Hov. apply bool_eq_iff.
  rewrite orb_true_iff, !inRange_iff. simpl. lia.
Qed.

(** X1. [Range.merge] under the condition of its comment ("valid iff
    b <= c"): when [b] and [c] overlap, [b] starts no later and stops no
    later than [c], the merged range holds exactly the positions of [b] and
    of [c]. *)
Theorem merge_is_union (b c : Range) (p : Z) :
  overlaps b c = true -> Start b <= Start c -> Stop b <= Stop c ->
  (Start (merge b c) <= p <= Stop (merge b c) <->
   Start b <= p <= Stop b \/ Start c <= p <= Stop c).
Proof.
  intros Hov Hs Ht. rewrite <- !inRange_iff, <- orb_true_iff.
  rewrite (merge_covers b c p Hov Hs Ht). tauto.
Qed.

Lemma merge_is_union_witness :
  Start (merge {| Start := 0; Stop := 10 |} {| Start := 5; Stop := 20 |}) <= 15
    <= Stop (merge {| Start := 0; Stop := 10 |} {| Start := 5; Stop := 20 |})
  <-> 0 <= 15 <= 10 \/ 5 <= 15 <= 20.
Proof.
  apply (merge_is_union {| Start := 0; Stop := 10 |} {| Start := 5; Stop := 20 |} 15).
  - reflexivity.
  - simpl. lia.
  - simpl. lia.
Defined.

(** X2. [overlaps] is the closed-interval test: two ranges with
    [Start <= Stop] overlap exactly when they share a position; ranges that
    only touch, one stopping where the other starts, overlap. *)
Theorem overlaps_shared_position (b c : Range) :
  Start b <= Stop b -> Start c <= Stop c ->
  (overlaps b c = true <->
   exists p, Start b <= p <= Stop b /\ Start c <= p <= Stop c).
Proof.
  intros Hb Hc. rewrite overlaps_true. split.
  - intros [H1 H2]. exists (Z.max (Start b) (Start c)). lia.
  - intros (p & H1 & H2). lia.
Qed.

Lemma overlaps_shared_position_witness :
  overlaps {| Start := 0; Stop := 10 |} {| Start := 10; Stop := 20 |} = true <->
  exists p, 0 <= p <= 10 /\ 10 <= p <= 20.
Proof.
  apply (overlaps_shared_position
           {| Start := 0; Stop := 10 |} {| Start := 10; Stop := 20 |});
    simpl; lia.
Defined.

(** X3. [rangeSlice.Less] is a strict total order on ranges: irreflexive,
    transitive, and two ranges it does not separate are equal. *)
Theorem Less_strict_total_order :
  (forall a, Less a a = false)
  /\ (forall a b c, Less a b = true -> Less b c = true -> Less a c = true)
  /\ (forall a b, Less a b = false -> Less b a = false -> a = b).
Proof.
  split; [| split].
  - intros a. apply not_true_iff_false. rewrite Less_lt. lia.
  - intros a b c. rewrite !Less_lt. lia.
  - intros a b Hab Hba. apply leRange_antisym; assumption.
Qed.

(** ** [Len], [Swap] and the indexed [Less] *)

Lemma storeNat_perm (l l' : list Range) (j : nat) (a y : Range) :
  nth_error l j = Some y -> storeNat l j a = Some l' ->
  Permutation (a :: l) (y :: l').
Proof.
  revert j l'. induction l as [| z l IH]; intros j l' Hy Hst.
  - destruct j; discriminate.
  - destruct j as [| j]; simpl in Hy, Hst.
    + injection Hy as ->. injection Hst as <-. apply perm_swap.
    + destruct (storeNat l j a) as [l0 |] eqn:Hl0; [| discriminate].
      injection Hst as <-.
      eapply perm_trans; [apply perm_swap |].
      eapply perm_trans; [apply perm_skip, (IH j l0 Hy Hl0) |].
      apply perm_swap.
Qed.

Lemma storeNat_swap_perm (b b1 b2 : list Range) (i j : nat) (bi bj : Range) :
  nth_error b i = Some bi -> nth_error b j = Some bj ->
  storeNat b i bj = Some b1 -> storeNat b1 j bi = Some b2 ->
  Permutation b b2.
Proof.
  revert i j b1 b2. induction b as [| a b IH]; intros i j b1 b2 Hi Hj H1 H2.
  - destruct i; discriminate.
  - destruct i as [| i], j as [| j]; simpl in Hi, Hj, H1.
    + injection Hi as ->. injection Hj as ->. injection H1 as <-.
      simpl in H2. injection H2 as <-. apply Permutation_refl.
    + injection Hi as ->. injection H1 as <-. simpl in H2.
      destruct (storeNat b j bi) as [b0 |] eqn:Hb0; [| discriminate].
      injection H2 as <-. eapply storeNat_perm; eassumption.
    + injection Hj as ->.
      destruct (storeNat b i bj) as [b0 |] eqn:Hb0; [| discriminate].
      injection H1 as <-. simpl in H2. injection H2 as <-.
      eapply storeNat_perm; eassumption.
    + destruct (storeNat b i bj) as [b0 |] eqn:Hb0; [| discriminate].
      injection H1 as <-. simpl in H2.
      destruct (storeNat b0 j bi) as [b3 |] eqn:Hb3; [| discriminate].
      injection H2 as <-. apply perm_skip. eapply IH; eassumption.
Qed.

Lemma storeNat_nth (b b' : list Range) (i k : nat) (x : Range) :
  storeNat b i x = Some b' ->
  nth_error b' k = if Nat.eqb k i then Some x else nth_error b k.
Proof.
  revert i k b'. induction b as [| a b IH]; intros i k b' Hst.
  - destruct i; discriminate.
  - destruct i as [| i]; simpl in Hst.
    + injection Hst as <-. destruct k; reflexivity.
    + destruct (storeNat b i x) as [b0 |] eqn:Hb0; [| discriminate].
      injection Hst as <-. destruct k as [| k]; [reflexivity |].
      simpl. apply IH, Hb0.
Qed.

Lemma storeNat_Some (b : list Range) (i : nat) (x : Range) :
  (i < List.length b)%nat -> exists b', storeNat b i x = Some b'.
Proof.
  revert i. induction b as [| a b IH]; intros i Hi; simpl in Hi; [lia |].
  destruct i as [| i]; simpl; [eauto |].
  destruct (IH i) as [b' ->]; [lia | eauto].
Qed.

Lemma elemAt_Some (b : list Range) (i : Z) :
  (exists x, elemAt b i = Some x) <-> 0 <= i < Len b.
Proof.
  unfold elemAt, Len. destruct (Z.ltb_spec i 0) as [Hneg | Hnn].
  - split; [intros [x H]; discriminate | lia].
  - split.
    + intros [x H]. assert (nth_error b (Z.to_nat i) <> None) as Hn
        by (rewrite H; discriminate).
      apply nth_error_Some in Hn. lia.
    + intros Hi. destruct (nth_error b (Z.to_nat i)) as [x |] eqn:Hx; [eauto |].
      apply nth_error_None in Hx. lia.
Qed.

(** X4. [rangeSlice.Swap] runs without panic exactly when both indices lie
    in [0, Len); it then leaves a permutation of the slice, of the same
    length, in which the elements at [i] and [j] have changed places and
    every other element is where it was. *)
Theorem Swap_exchanges (b : list Range) (i j : Z) :
  ((exists b', Swap b i j = Some b') <-> 0 <= i < Len b /\ 0 <= j < Len b)
  /\ (forall b', Swap b i j = Some b' ->
      Permutation b b' /\ Len b' = Len b
      /\ elemAt b' i = elemAt b j /\ elemAt b' j = elemAt b i
      /\ (forall k, k <> i -> k <> j -> elemAt b' k = elemAt b k)).
Proof.
  assert (Hinv : forall b', Swap b i j = Some b' ->
            exists bi bj b1, 0 <= i /\ 0 <= j
              /\ nth_error b (Z.to_nat i) = Some bi
              /\ nth_error b (Z.to_nat j) = Some bj
              /\ storeNat b (Z.to_nat i) bj = Some b1
              /\ storeNat b1 (Z.to_nat j) bi = Some b').
  { intros b'. unfold Swap, elemAt, store.
    destruct (Z.ltb_spec j 0); [discriminate |].
    destruct (nth_error b (Z.to_nat j)) as [bj |] eqn:Hj; [| discriminate].
    destruct (Z.ltb_spec i 0); [discriminate |].
    destruct (nth_error b (Z.to_nat i)) as [bi |] eqn:Hi; [| discriminate].
    destruct (storeNat b (Z.to_nat i) bj) as [b1 |] eqn:H1; [| discriminate].
    intros H2. exists bi, bj, b1. auto 7. }
  split.
  - rewrite <- !elemAt_Some. split.
    + intros [b' H]. destruct (Hinv b' H) as (bi & bj & b1 & Hi0 & Hj0 & Hi & Hj & _).
      unfold elemAt.
      destruct (Z.ltb_spec i 0); [lia |]. destruct (Z.ltb_spec j 0); [lia |].
      eauto.
    + intros [[bi Hi] [bj Hj]]. unfold Swap. rewrite Hi, Hj.
      unfold elemAt, store in *.
      destruct (Z.ltb_spec i 0); [discriminate |].
      destruct (Z.ltb_spec j 0); [discriminate |].
      destruct (storeNat_Some b (Z.to_nat i) bj) as [b1 H1].
      { apply nth_error_Some. rewrite Hi. discriminate. }
      rewrite H1.
      apply storeNat_Some. apply nth_error_Some.
      rewrite (storeNat_nth _ _ _ (Z.to_nat j) _ H1).
      destruct (Nat.eqb (Z.to_nat j) (Z.to_nat i)); [discriminate |].
      rewrite Hj. discriminate.
  - intros b' H.
    destruct (Hinv b' H) as (bi & bj & b1 & Hi0 & Hj0 & Hi & Hj & H1 & H2).
    assert (Hperm : Permutation b b')
      by exact (storeNat_swap_perm b b1 b' _ _ bi bj Hi Hj H1 H2).
    split; [exact Hperm |].
    split; [unfold Len; rewrite (Permutation_length Hperm); reflexivity |].
    assert (Hnth : forall k, 0 <= k ->
              elemAt b' k =
              if Nat.eqb (Z.to_nat k) (Z.to_nat j) then Some bi
              else if Nat.eqb (Z.to_nat k) (Z.to_nat i) then Some bj
              else elemAt b k).
    { intros k Hk. unfold elemAt. destruct (Z.ltb_spec k 0); [lia |].
      rewrite (storeNat_nth _ _ _ (Z.to_nat k) _ H2).
      destruct (Nat.eqb (Z.to_nat k) (Z.to_nat j)); [reflexivity |].
      apply (storeNat_nth _ _ _ (Z.to_nat k) _ H1). }
    assert (Hei : elemAt b i = Some bi)
      by (unfold elemAt; destruct (Z.ltb_spec i 0); [lia | exact Hi]).
    assert (Hej : elemAt b j = Some bj)
      by (unfold elemAt; destruct (Z.ltb_spec j 0); [lia | exact Hj]).
    split; [| split].
    + rewrite (Hnth i Hi0), Nat.eqb_refl, Hej.
      destruct (Nat.eqb_spec (Z.to_nat i) (Z.to_nat j)) as [E | _];
        [| reflexivity].
      assert (i = j) by lia. subst j. congruence.
    + rewrite (Hnth j Hj0), Nat.eqb_refl. symmetry. exact Hei.
    + intros k Hki Hkj. destruct (Z.ltb_spec k 0) as [Hneg | Hk].
      * unfold elemAt. destruct (Z.ltb_spec k 0); [reflexivity | lia].
      * rewrite (Hnth k Hk).
        destruct (Nat.eqb_spec (Z.to_nat k) (Z.to_nat j)); [lia |].
        destruct (Nat.eqb_spec (Z.to_nat k) (Z.to_nat i)); [lia |].
        reflexivity.
Qed.

(** ** [mergeRanges] on arbitrary slices *)

Lemma StronglySorted_weaken (R R' : Range -> Range -> Prop) (l : list Range) :
  (forall a b, In a l -> In b l -> R a b -> R' a b) ->
  StronglySorted R l -> StronglySorted R' l.
Proof.
  intros HR Hs. induction Hs as [| a l Hs IH Ha]; constructor.
  - apply IH. intros x y Hx Hy. apply HR; right; assumption.
  - rewrite Forall_forall in *. intros x Hx.
    apply HR; [left; reflexivity | right; exact Hx | apply Ha, Hx].
Qed.

(** Where stops ascend along the sorted slice, the sweep keeps every
    position. *)
Lemma sweep_covers_exact (l : list Range) (cur : Range) (p : Z) :
  StronglySorted leRange (cur :: l) ->
  StronglySorted (fun a b => Stop a <= Stop b) (cur :: l) ->
  covers (sweep cur l) p = covers (cur :: l) p.
Proof.
  revert cur. induction l as [| b l IH]; intros cur Hle Hst; simpl.
  - reflexivity.
  - inversion Hle as [| ? ? Hle' Hc]; subst. inversion Hc as [| ? ? Hcb _]; subst.
    inversion Hst as [| ? ? Hst' Hs]; subst. inversion Hs as [| ? ? Hsb _]; subst.
    destruct (overlaps cur b) eqn:Hov.
    + rewrite IH.
      * simpl. rewrite merge_covers, orb_assoc; try assumption; [reflexivity |].
        apply leRange_le in Hcb. lia.
      * apply merge_sorted, Hle.
      * inversion Hst' as [| ? ? Hl Hb]; subst. constructor; assumption.
    + simpl. rewrite (IH b Hle' Hst'). reflexivity.
Qed.

Lemma sweep_length (l : list Range) (cur : Range) :
  (1 <= List.length (sweep cur l) <= S (List.length l))%nat.
Proof.
  revert cur. induction l as [| b l IH]; intros cur; simpl.
  - lia.
  - destruct (overlaps cur b); simpl; [specialize (IH (merge cur b)) |
                                      specialize (IH b)]; lia.
Qed.

(** X5. [mergeRanges] adds no position: a position covered by a range of
    the output is covered by a range of the input, whatever the input. *)
Theorem mergeRanges_adds_no_position (br : list Range) (p : Z) :
  covers (mergeRanges br) p = true -> covers br p = true.
Proof. apply mergeRanges_covers_sound. Qed.

Lemma mergeRanges_adds_no_position_witness :
  covers [ {| Start := 0; Stop := 10 |}; {| Start := 5; Stop := 20 |} ] 15 = true.
Proof.
  apply (mergeRanges_adds_no_position
           [ {| Start := 0; Stop := 10 |}; {| Start := 5; Stop := 20 |} ] 15).
  vm_compute. reflexivity.
Defined.

(** X6. [mergeRanges] keeps every position when no range of the input that
    starts later than another one stops earlier than it: the output then
    covers exactly the positions the input covers. *)
Theorem mergeRanges_covers_exactly (br : list Range) (p : Z) :
  (forall a b, In a br -> In b br -> Start a < Start b -> Stop a <= Stop b) ->
  covers (mergeRanges br) p = covers br p.
Proof.
  intros Hmono. rewrite mergeRanges_sweep.
  destruct (Z.of_nat (List.length br) <? 2); [reflexivity |].
  rewrite (covers_perm br _ p (sortRanges_perm br)).
  pose proof (sortRanges_sorted br) as Hs.
  pose proof (sortRanges_perm br) as Hp.
  destruct (sortRanges br) as [| br0 rest]; [reflexivity |].
  apply sweep_covers_exact; [exact Hs |].
  eapply StronglySorted_weaken; [| exact Hs].
  intros a b Ha Hb Hab. apply leRange_le in Hab.
  destruct Hab as [Hlt | [_ Hle]]; [| exact Hle].
  apply Hmono; try assumption;
    eapply Permutation_in; try eassumption; apply Permutation_sym, Hp.
Qed.

Lemma mergeRanges_covers_exactly_witness :
  covers (mergeRanges [ {| Start := 5; Stop := 20 |}; {| Start := 0; Stop := 10 |} ]) 15
  = covers [ {| Start := 5; Stop := 20 |}; {| Start := 0; Stop := 10 |} ] 15.
Proof.
  apply mergeRanges_covers_exactly.
  intros a b [<- | [<- | []]] [<- | [<- | []]]; simpl; lia.
Defined.

(** X7. [mergeRanges] returns no more ranges than it is given, and an empty
    slice only for an empty slice. *)
Theorem mergeRanges_length (br : list Range) :
  (List.length (mergeRanges br) <= List.length br)%nat
  /\ (mergeRanges br = [] <-> br = []).
Proof.
  rewrite mergeRanges_sweep.
  destruct (Z.of_nat (List.length br) <? 2) eqn:Hlen; [split; [lia | tauto] |].
  pose proof (Permutation_length (sortRanges_perm br)) as Hl.
  destruct (sortRanges br) as [| br0 rest].
  - simpl in Hl. apply Z.ltb_ge in Hlen. lia.
  - pose proof (sweep_length rest br0) as Hs. simpl in Hl. split; [lia |].
    split; intros H.
    + rewrite H in Hs. simpl in Hs. lia.
    + subst br. discriminate.
Qed.

(** X8. Whatever the input, the slice [mergeRanges] returns is in the order
    of [Less] and no two neighbours of it overlap. *)
Theorem mergeRanges_ordered_apart (br : list Range) :
  StronglySorted (fun a b => Less b a = false) (mergeRanges br)
  /\ Sorted (fun a b => overlaps a b = false) (mergeRanges br).
Proof.
  pose proof (mergeRanges_settled br) as Hs. split.
  - apply settled_sorted, Hs.
  - induction Hs as [| a l _ IH Hhd]; constructor; [exact IH |].
    destruct Hhd as [| b l [_ Hov]]; constructor. exact Hov.
Qed.

(** X9. Every range [mergeRanges] returns starts where a range of the input
    starts and stops where a range of the input stops. *)
Theorem mergeRanges_ends_from_input (br : list Range) (r : Range) :
  In r (mergeRanges br) ->
  (exists a, In a br /\ Start r = Start a) /\
  (exists b, In b br /\ Stop r = Stop b).
Proof. apply mergeRanges_ends. Qed.

Lemma mergeRanges_ends_from_input_witness :
  (exists a, In a [ {| Start := 5; Stop := 20 |}; {| Start := 0; Stop := 10 |} ]
             /\ Start {| Start := 0; Stop := 20 |} = Start a) /\
  (exists b, In b [ {| Start := 5; Stop := 20 |}; {| Start := 0; Stop := 10 |} ]
             /\ Stop {| Start := 0; Stop := 20 |} = Stop b).
Proof.
  apply mergeRanges_ends_from_input. vm_compute. auto.
Defined.

(** X10. On ranges with [Start <= Stop], [mergeRanges] returns ranges with
    [Start <= Stop] of which any earlier one stops strictly before any later
    one starts. *)
Theorem mergeRanges_valid_disjoint (br : list Range) :
  Forall (fun r => Start r <= Stop r) br ->
  Forall (fun r => Start r <= Stop r) (mergeRanges br)
  /\ StronglySorted (fun a b => Stop a < Start b) (mergeRanges br).
Proof.
  intros Hv. pose proof (mergeRanges_valid br Hv) as Hv'.
  split; [exact Hv' |].
  apply gap_pairwise; [| exact Hv'].
  apply settled_valid_gap; [apply mergeRanges_settled | exact Hv'].
Qed.

Lemma mergeRanges_valid_disjoint_witness :
  Forall (fun r => Start r <= Stop r)
    (mergeRanges [ {| Start := 30; Stop := 40 |}; {| Start := 0; Stop := 10 |} ])
  /\ StronglySorted (fun a b => Stop a < Start b)
       (mergeRanges [ {| Start := 30; Stop := 40 |}; {| Start := 0; Stop := 10 |} ]).
Proof.
  apply mergeRanges_valid_disjoint.
  repeat constructor; simpl; lia.
Defined.

(** X11. A slice of ranges with [Start <= Stop] in which every range stops
    strictly before the next one starts is returned by [mergeRanges] as it
    is. *)
Theorem mergeRanges_fixed_point (br : list Range) :
  Forall (fun r => Start r <= Stop r) br ->
  Sorted (fun a b => Stop a < Start b) br ->
  mergeRanges br = br.
Proof.
  intros Hv Hs. apply mergeRanges_settled_id.
  induction Hs as [| a l _ IH Hhd]; constructor.
  - apply IH. inversion Hv; assumption.
  - inversion Hv as [| ? ? Ha _]; subst.
    destruct Hhd as [| b l Hab]; constructor. split.
    + apply leRange_le. lia.
    + apply overlaps_false. lia.
Qed.

Lemma mergeRanges_fixed_point_witness :
  mergeRanges [ {| Start := 0; Stop := 10 |}; {| Start := 30; Stop := 40 |} ]
  = [ {| Start := 0; Stop := 10 |}; {| Start := 30; Stop := 40 |} ].
Proof.
  apply mergeRanges_fixed_point.
  - repeat constructor; simpl; lia.
  - repeat constructor; simpl; lia.
Defined.

(** ** [Parse] on arbitrary entries *)

(** The loop succeeds exactly when every token denotes a range; it then
    returns these ranges, in the order of the tokens, behind [result]. *)
Lemma parseTokens_Ok (toks : list string) (maxLen : Z)
  (result out : list Range) :
  parseTokens toks maxLen result = Ok out <->
  exists rs, Forall2 (fun t r => parseRange t maxLen = Ok r) toks rs /\
             out = result ++ rs.
Proof.
  split.
  - revert result. induction toks as [| t toks IH]; intros result; simpl.
    + intros [= <-]. exists []. split; [constructor | rewrite app_nil_r; reflexivity].
    + destruct (parseRange t maxLen) as [rg |] eqn:Ht; [| discriminate].
      intros H. destruct (IH _ H) as (rs & Hrs & ->).
      exists (rg :: rs). split; [constructor; assumption |].
      rewrite <- app_assoc. reflexivity.
  - intros (rs & Hrs & ->). revert result.
    induction Hrs as [| t r toks rs Ht _ IH]; intros result; simpl.
    + rewrite app_nil_r. reflexivity.
    + rewrite Ht, IH, <- app_assoc. reflexivity.
Qed.

Lemma Parse_Ok_ranges (ranges : list string) (prefix : string) (maxLen : Z)
  (out : list Range) :
  Parse ranges prefix maxLen = Ok out <->
  exists rs,
    Forall2 (fun t r => parseRange t maxLen = Ok r) (tokens ranges prefix) rs /\
    out = mergeRanges rs.
Proof.
  unfold Parse. rewrite parseEntries_tokens.
  destruct (parseTokens (tokens ranges prefix) maxLen []) as [result |] eqn:Hp.
  - apply parseTokens_Ok in Hp. destruct Hp as (rs & Hrs & ->). simpl. split.
    + intros [= <-]. eauto.
    + intros (rs' & Hrs' & ->). do 2 f_equal.
      clear - Hrs Hrs'. revert rs' Hrs'.
      induction Hrs as [| t r toks rs Ht _ IH]; intros rs' Hrs';
        inversion Hrs' as [| ? r' ? rs0 Ht' Hrs0]; subst; [reflexivity |].
      rewrite Ht in Ht'. injection Ht' as <-. f_equal. apply IH, Hrs0.
  - split; [discriminate |]. intros (rs & Hrs & _).
    assert (parseTokens (tokens ranges prefix) maxLen [] = Ok ([] ++ rs)) as H
      by (apply parseTokens_Ok; eauto).
    rewrite H in Hp. discriminate.
Qed.

Lemma tokens_app (r1 r2 : list string) (prefix : string) :
  tokens (r1 ++ r2) prefix = tokens r1 prefix ++ tokens r2 prefix.
Proof. unfold tokens. apply flat_map_app. Qed.

Lemma tokens_nil (ranges : list string) (prefix : string) :
  tokens ranges prefix = [] -> ranges = [].
Proof.
  destruct ranges as [| r ranges]; [reflexivity |].
  unfold tokens. simpl. intros H. apply app_eq_nil in H. destruct H as [H _].
  destruct (Split_nonempty _ _ H).
Qed.

Lemma mergeRanges_perm (xs ys : list Range) :
  Permutation xs ys -> mergeRanges xs = mergeRanges ys.
Proof.
  intros Hp. rewrite !mergeRanges_sweep, <- (Permutation_length Hp).
  destruct (Z.of_nat (List.length xs) <? 2) eqn:Hlen.
  - destruct (short_slice xs Hlen) as [-> | [x ->]].
    + apply Permutation_nil in Hp. symmetry. exact Hp.
    + apply Permutation_length_1_inv in Hp. symmetry. exact Hp.
  - rewrite (sortRanges_unique xs (sortRanges ys)); [reflexivity | |].
    + eapply perm_trans; [exact Hp | apply sortRanges_perm].
    + apply sortRanges_sorted.
Qed.

Lemma mergeRanges_nil (br : list Range) : mergeRanges br = [] -> br = [].
Proof.
  rewrite mergeRanges_sweep.
  destruct (Z.of_nat (List.length br) <? 2) eqn:Hlen; [trivial |].
  pose proof (Permutation_length (sortRanges_perm br)) as Hl.
  destruct (sortRanges br) as [| br0 rest].
  - destruct br; [reflexivity | discriminate].
  - intros H. pose proof (sweep_length rest br0) as Hs.
    rewrite H in Hs. simpl in Hs. lia.
Qed.

(** A token is accepted only for a content length that is not negative. *)
Lemma parseRange_Ok_maxLen (tok : string) (maxLen : Z) (rg : Range) :
  parseRange tok maxLen = Ok rg -> 0 <= maxLen.
Proof.
  unfold parseRange.
  destruct (Split tok "-") as [| p0 [| p1 [| p2 ps]]]; try discriminate.
  destruct (String.eqb p0 ""); [| destruct (String.eqb p1 "")].
  - destruct (Atoi p1) as [y |]; [| discriminate].
    destruct ((y <? 0) || (y >? maxLen))%bool eqn:Hg; [discriminate |].
    intros _. zbool. lia.
  - destruct (Atoi p0) as [x |]; [| discriminate].
    destruct ((x <? 0) || (x >? maxLen))%bool eqn:Hg; [discriminate |].
    intros _. zbool. lia.
  - destruct (Atoi p0) as [x |]; [| discriminate].
    destruct (Atoi p1) as [y |]; [| discriminate].
    destruct ((x <? 0) || (y <? 0) || (x >? maxLen) || (y >? maxLen)
              || (x >? y))%bool eqn:Hg; [discriminate |].
    intros _. zbool. lia.
Qed.

Lemma Parse_total (ranges : list string) (prefix : string) (maxLen : Z) :
  (exists out, Parse ranges prefix maxLen = Ok out) \/
  (exists e, Parse ranges prefix maxLen = Fail e).
Proof. destruct (Parse ranges prefix maxLen); eauto. Qed.

(** X12. [Parse] returns ranges exactly when every token of every entry is
    accepted: one rejected token makes the whole call fail, and nothing but a
    rejected token does. *)
Theorem Parse_all_or_nothing
  (ranges : list string) (prefix : string) (maxLen : Z) :
  ((exists out, Parse ranges prefix maxLen = Ok out) <->
   Forall (accepted maxLen) (tokens ranges prefix))
  /\ ((exists e, Parse ranges prefix maxLen = Fail e) <->
      Exists (fun tok => ~ accepted maxLen tok) (tokens ranges prefix)).
Proof.
  assert (H1 : (exists out, Parse ranges prefix maxLen = Ok out) <->
               Forall (accepted maxLen) (tokens ranges prefix)).
  { split.
    - intros [out H]. apply Parse_Ok_ranges in H. destruct H as (rs & Hrs & _).
      induction Hrs as [| t r toks rs Ht _ IH]; constructor; [| exact IH].
      exists r. exact Ht.
    - intros Hacc. unfold Parse. rewrite parseEntries_tokens.
      destruct (parseTokens_accepted _ maxLen [] Hacc) as [result ->]. eauto. }
  split; [exact H1 |]. split.
  - intros [e He]. apply Parse_Fail in He.
    destruct He as (pre & tok & post & -> & _ & Htok).
    apply Exists_app. right. constructor.
    eapply rejected_not_accepted, Htok.
  - intros Hex. destruct (Parse_total ranges prefix maxLen) as [Hok | Hfail];
      [| exact Hfail].
    apply H1 in Hok. rewrite Forall_forall in Hok.
    apply Exists_exists in Hex. destruct Hex as (tok & Hin & Hrej).
    destruct (Hrej (Hok tok Hin)).
Qed.

(** X13. The ranges [Parse] returns do not depend on the order of the
    entries: when it succeeds on a list of entries it succeeds with the same
    slice on every permutation of that list. *)
Theorem Parse_entry_order
  (ranges ranges' : list string) (prefix : string) (maxLen : Z)
  (out : list Range) :
  Permutation ranges ranges' ->
  Parse ranges prefix maxLen = Ok out ->
  Parse ranges' prefix maxLen = Ok out.
Proof.
  intros Hp H. apply Parse_Ok_ranges in H. destruct H as (rs & Hrs & ->).
  assert (Ht : Permutation (tokens ranges prefix) (tokens ranges' prefix))
    by (unfold tokens; apply Permutation_flat_map, Hp).
  destruct (Permutation_Forall2 Ht Hrs) as (rs' & Hperm & Hrs').
  apply Parse_Ok_ranges. exists rs'. split; [exact Hrs' |].
  apply mergeRanges_perm, Hperm.
Qed.

Lemma Parse_entry_order_witness :
  Parse ["bytes=250-,-50"; "bytes=0-99"; "bytes=50-99,200-300"] "bytes=" 350
  = Ok [ {| Start := 0; Stop := 99 |}; {| Start := 200; Stop := 350 |} ].
Proof.
  apply (Parse_entry_order
           ["bytes=0-99"; "bytes=50-99,200-300"; "bytes=250-,-50"]).
  - eapply perm_trans; [apply perm_skip, perm_swap | apply perm_swap].
  - vm_compute. reflexivity.
Defined.

(** X14. The error of an earlier entry stands: when [Parse] fails on a list
    of entries it fails with the same error on that list followed by any
    further entries. *)
Theorem Parse_error_precedence
  (r1 r2 : list string) (prefix : string) (maxLen : Z) (e : error) :
  Parse r1 prefix maxLen = Fail e ->
  Parse (r1 ++ r2) prefix maxLen = Fail e.
Proof.
  rewrite !Parse_Fail. intros (pre & tok & post & Heq & Hpre & Htok).
  exists pre, tok, (post ++ tokens r2 prefix). repeat split; try assumption.
  rewrite tokens_app, Heq, <- app_assoc. reflexivity.
Qed.

Lemma Parse_error_precedence_witness :
  Parse (["bytes=0-1,x"] ++ ["bytes=5-3"]) "bytes=" 10 = Fail Error.
Proof.
  apply Parse_error_precedence. vm_compute. reflexivity.
Defined.

(** X15. [Parse] returns the empty slice without error for the empty list
    of entries and for no other input: every entry, an empty string
    included, holds at least one token. *)
Theorem Parse_empty_result
  (ranges : list string) (prefix : string) (maxLen : Z) :
  Parse ranges prefix maxLen = Ok [] <-> ranges = [].
Proof.
  split.
  - intros H. apply Parse_Ok_ranges in H. destruct H as (rs & Hrs & Hm).
    symmetry in Hm. apply mergeRanges_nil in Hm. subst rs.
    inversion Hrs as [Ht |]. symmetry in Ht. eapply tokens_nil, Ht.
  - intros ->. reflexivity.
Qed.

(** X16. With a negative [maxLen], [Parse] fails on every list of entries
    but the empty one, on which it returns the empty slice without error. *)
Theorem Parse_negative_maxLen
  (ranges : list string) (prefix : string) (maxLen : Z) :
  maxLen < 0 ->
  (ranges = [] /\ Parse ranges prefix maxLen = Ok []) \/
  (ranges <> [] /\ exists e, Parse ranges prefix maxLen = Fail e).
Proof.
  intros Hneg. destruct ranges as [| r ranges]; [left; auto |].
  right. split; [discriminate |].
  destruct (Parse_total (r :: ranges) prefix maxLen) as [[out Hok] | Hfail];
    [| exact Hfail].
  apply Parse_Ok_ranges in Hok. destruct Hok as (rs & Hrs & _).
  destruct (tokens (r :: ranges) prefix) as [| t toks] eqn:Ht.
  - apply tokens_nil in Ht. discriminate.
  - inversion Hrs as [| ? rg ? ? Hrg _]; subst.
    apply parseRange_Ok_maxLen in Hrg. lia.
Qed.

Lemma Parse_negative_maxLen_witness :
  (["bytes=0-0"] = [] /\ Parse ["bytes=0-0"] "bytes=" (-1) = Ok []) \/
  (["bytes=0-0"] <> [] /\ exists e, Parse ["bytes=0-0"] "bytes=" (-1) = Fail e).
Proof. apply Parse_negative_maxLen. lia. Defined.

(** X17. The slice a successful [Parse] returns is merged: [mergeRanges]
    leaves it unchanged. *)
Theorem Parse_output_merged
  (ranges : list string) (prefix : string) (maxLen : Z) (out : list Range) :
  Parse ranges prefix maxLen = Ok out -> mergeRanges out = out.
Proof.
  intros H. destruct (Parse_Ok _ _ _ _ H) as (result & _ & ->).
  apply mergeRanges_settled_id, mergeRanges_settled.
Qed.

Lemma Parse_output_merged_witness :
  mergeRanges [ {| Start := 0; Stop := 99 |}; {| Start := 200; Stop := 350 |} ]
  = [ {| Start := 0; Stop := 99 |}; {| Start := 200; Stop := 350 |} ].
Proof.
  apply (Parse_output_merged
           ["bytes=0-99"; "bytes=50-99,200-300"; "bytes=250-,-50"] "bytes=" 350).
  vm_compute. reflexivity.
Defined.

(** ** The three forms of a token *)

(** X18. What [Parse] reads from one token, for [maxLen] an [int]: the token
    is accepted exactly when it splits on ['-'] into two parts that make a
    suffix form [-Y] with [0 <= Y <= maxLen], denoting
    [(maxLen - Y, maxLen)], an open-ended form [X-] with [0 <= X <= maxLen],
    denoting [(X, maxLen)], or a closed form [X-Y] with
    [0 <= X <= Y <= maxLen], denoting [(X, Y)]. *)
Theorem parseRange_forms (tok : string) (maxLen : Z) (rg : Range) :
  GoInt.in_range maxLen ->
  (parseRange tok maxLen = Ok rg <->
   exists p0 p1, Split tok "-" = [p0; p1] /\
     ((p0 = "" /\ exists y, Atoi p1 = Ok y /\ 0 <= y <= maxLen /\
                            rg = {| Start := maxLen - y; Stop := maxLen |}) \/
      (p0 <> "" /\ p1 = "" /\
       exists x, Atoi p0 = Ok x /\ 0 <= x <= maxLen /\
                 rg = {| Start := x; Stop := maxLen |}) \/
      (p0 <> "" /\ p1 <> "" /\
       exists x y, Atoi p0 = Ok x /\ Atoi p1 = Ok y /\
                   0 <= x /\ x <= y /\ y <= maxLen /\
                   rg = {| Start := x; Stop := y |}))).
Proof.
  intros Hm. split.
  - unfold parseRange.
    destruct (Split tok "-") as [| p0 [| p1 [| p2 ps]]]; try discriminate.
    intros H. exists p0, p1. split; [reflexivity |]. revert H.
    destruct (String.eqb_spec p0 "") as [-> | Hp0];
      [| destruct (String.eqb_spec p1 "") as [-> | Hp1]].
    + destruct (Atoi p1) as [y |]; [| discriminate].
      destruct ((y <? 0) || (y >? maxLen))%bool eqn:Hg; [discriminate |].
      intros [= <-]. zbool. left. split; [reflexivity |].
      exists y. rewrite sub_exact; [auto | exact Hm | lia].
    + destruct (Atoi p0) as [x |]; [| discriminate].
      destruct ((x <? 0) || (x >? maxLen))%bool eqn:Hg; [discriminate |].
      intros [= <-]. zbool. right; left. split; [exact Hp0 |].
      split; [reflexivity |]. exists x. auto.
    + destruct (Atoi p0) as [x |]; [| discriminate].
      destruct (Atoi p1) as [y |]; [| discriminate].
      destruct ((x <? 0) || (y <? 0) || (x >? maxLen) || (y >? maxLen)
                || (x >? y))%bool eqn:Hg; [discriminate |].
      intros [= <-]. zbool. right; right. split; [exact Hp0 |].
      split; [exact Hp1 |]. exists x, y. auto 7.
  - intros (p0 & p1 & Hs & Hcase). unfold parseRange. rewrite Hs.
    destruct Hcase as [(-> & y & Hy & Hb & ->) |
                       [(Hp0 & -> & x & Hx & Hb & ->) |
                        (Hp0 & Hp1 & x & y & Hx & Hy & H0 & Hxy & Hmax & ->)]].
    + rewrite String.eqb_refl, Hy.
      destruct ((y <? 0) || (y >? maxLen))%bool eqn:Hg.
      * apply guard_outside in Hg. unfold outside in Hg. lia.
      * rewrite sub_exact; [reflexivity | exact Hm | exact Hb].
    + apply String.eqb_neq in Hp0. rewrite Hp0, String.eqb_refl, Hx.
      destruct ((x <? 0) || (x >? maxLen))%bool eqn:Hg; [| reflexivity].
      apply guard_outside in Hg. unfold outside in Hg. lia.
    + apply String.eqb_neq in Hp0, Hp1. rewrite Hp0, Hp1, Hx, Hy.
      destruct ((x <? 0) || (y <? 0) || (x >? maxLen) || (y >? maxLen)
                || (x >? y))%bool eqn:Hg; [| reflexivity].
      apply guard_closed in Hg. unfold outside in Hg. lia.
Qed.

Lemma parseRange_forms_witness :
  parseRange "200-300" 350 = Ok {| Start := 200; Stop := 300 |} <->
  exists p0 p1, Split "200-300" "-" = [p0; p1] /\
    ((p0 = "" /\ exists y, Atoi p1 = Ok y /\ 0 <= y <= 350 /\
                 {| Start := 200; Stop := 300 |}
                 = {| Start := 350 - y; Stop := 350 |}) \/
     (p0 <> "" /\ p1 = "" /\
      exists x, Atoi p0 = Ok x /\ 0 <= x <= 350 /\
                {| Start := 200; Stop := 300 |} = {| Start := x; Stop := 350 |}) \/
     (p0 <> "" /\ p1 <> "" /\
      exists x y, Atoi p0 = Ok x /\ Atoi p1 = Ok y /\
                  0 <= x /\ x <= y /\ y <= 350 /\
                  {| Start := 200; Stop := 300 |} = {| Start := x; Stop := y |})).
Proof.
  apply (parseRange_forms "200-300" 350 {| Start := 200; Stop := 300 |}).
  unfold GoInt.in_range, GoInt.minInt, GoInt.maxInt. lia.
Defined.

(** ** The prefix *)

Lemma TrimPrefix_empty (s : string) : TrimPrefix s "" = s.
Proof. unfold TrimPrefix. destruct s; reflexivity. Qed.

Lemma Parse_tokens_eq (r1 r2 : list string) (p1 p2 : string) (maxLen : Z) :
  tokens r1 p1 = tokens r2 p2 -> Parse r1 p1 maxLen = Parse r2 p2 maxLen.
Proof.
  intros H. unfold Parse. rewrite !parseEntries_tokens, H. reflexivity.
Qed.

(** X19. The prefix is trimmed where it is present and not asked for where
    it is absent: entries that all carry the prefix are parsed like the same
    entries without it, and so are entries none of which starts with the
    prefix. *)
Theorem Parse_prefix_optional
  (ranges : list string) (prefix : string) (maxLen : Z) :
  Parse (map (String.append prefix) ranges) prefix maxLen
  = Parse ranges "" maxLen
  /\ (Forall (fun r => HasPrefix r prefix = false) ranges ->
      Parse ranges prefix maxLen = Parse ranges "" maxLen).
Proof.
  split.
  - apply Parse_tokens_eq. unfold tokens.
    induction ranges as [| r ranges IH]; simpl; [reflexivity |].
    rewrite TrimPrefix_app, TrimPrefix_empty, IH. reflexivity.
  - intros Habs. apply Parse_tokens_eq. unfold tokens.
    induction Habs as [| r ranges Hr _ IH]; simpl; [reflexivity |].
    rewrite TrimPrefix_empty, IH. unfold TrimPrefix. rewrite Hr. reflexivity.
Qed.

(** ** [ParseHeader] *)

Lemma Parse_Ok_shape (ranges : list string) (prefix : string) (maxLen : Z)
  (out : list Range) :
  GoInt.in_range maxLen ->
  Parse ranges prefix maxLen = Ok out ->
  Forall (within maxLen) out /\ StronglySorted gap out.
Proof.
  intros Hm Hp. destruct (Parse_Ok _ _ _ _ Hp) as (result & Hres & ->).
  pose proof (Parse_inputs_within _ _ _ _ Hm Hres) as Hin.
  assert (Hv : Forall valid (mergeRanges result)).
  { apply mergeRanges_valid. eapply Forall_impl; [| exact Hin].
    intros r (_ & H & _). exact H. }
  split.
  - rewrite Forall_forall in *. intros r Hr.
    destruct (mergeRanges_ends _ _ Hr) as [(a & Ha & Hsa) (b & Hb & Hsb)].
    destruct (Hin a Ha) as (Ha0 & _ & _). destruct (Hin b Hb) as (_ & _ & Hb1).
    specialize (Hv r Hr). unfold within, valid in *. lia.
  - apply gap_pairwise; [| exact Hv].
    apply settled_valid_gap; [apply mergeRanges_settled | exact Hv].
Qed.

(** X20. When [ParseHeader] returns ranges, the first [Content-Length]
    value is a numeral [n] that is not rejected, and the ranges lie within
    [0, n], each with [Start <= Stop], any earlier one stopping strictly
    before any later one starts. *)
Theorem ParseHeader_ranges_within_length (h : Header) (out : list Range) :
  ParseHeader h = Ok out ->
  exists n, Atoi (Get h "Content-Length") = Ok n
    /\ Forall (fun r => 0 <= Start r /\ Start r <= Stop r /\ Stop r <= n) out
    /\ StronglySorted (fun a b => Stop a < Start b) out.
Proof.
  unfold ParseHeader.
  destruct (Atoi (Get h "Content-Length")) as [n |] eqn:Hn; [| discriminate].
  intros H. exists n. split; [reflexivity |].
  apply (Parse_Ok_shape _ _ _ _ (Atoi_in_range _ _ Hn) H).
Qed.

Lemma ParseHeader_ranges_within_length_witness :
  exists n,
    Atoi (Get [("Range", ["bytes=0-99,50-150"]); ("Content-Length", ["300"])]
            "Content-Length") = Ok n
    /\ Forall (fun r => 0 <= Start r /\ Start r <= Stop r /\ Stop r <= n)
         [ {| Start := 0; Stop := 150 |} ]
    /\ StronglySorted (fun a b => Stop a < Start b)
         [ {| Start := 0; Stop := 150 |} ].
Proof.
  apply ParseHeader_ranges_within_length. vm_compute. reflexivity.
Defined.

(** X21. [ParseHeader] returns the empty slice without error exactly when
    the first [Content-Length] value is a numeral that is not rejected and
    the header holds no [Range] value: a missing [Range] field is no
    error. *)
Theorem ParseHeader_no_range (h : Header) :
  ParseHeader h = Ok [] <->
  (exists n, Atoi (Get h "Content-Length") = Ok n) /\ index h "Range" = [].
Proof.
  unfold ParseHeader. split.
  - destruct (Atoi (Get h "Content-Length")) as [n |]; [| discriminate].
    intros H. split; [eauto |].
    apply Parse_Ok_ranges in H. destruct H as (rs & Hrs & Hm).
    symmetry in Hm. apply mergeRanges_nil in Hm. subst rs.
    inversion Hrs as [Ht |]. symmetry in Ht. eapply tokens_nil, Ht.
  - intros [[n ->] ->]. reflexivity.
Qed.
